(** * DRG Mod Updater: the reconciliation and download pipeline of [start.mjs]

    A shallow embedding of [src/start.mjs].  The pure part of the script
    (filename parsing, registry matching, version comparison) is embedded as
    executable functions over strings, lists and finite maps.  The
    asynchronous part (promises, [Promise.all], the download of one file) is
    embedded as explicit state passing over the order in which the pending
    operations settle. *)

From Stdlib Require Import Ascii.
From stdpp Require Import base option list strings gmap sorting.

(** ** JavaScript strings

    A JavaScript string is a sequence of UTF-16 code units.  The strings of
    this development are Rocq [string]s, one [ascii] standing for one code
    unit below 256; this covers every literal of the script. *)

Module JsString.

(** [strip_prefix p s] is [Some r] when [s = p ++ r]. *)
Fixpoint strip_prefix (p s : string) : option string :=
  match p, s with
  | EmptyString, _ => Some s
  | String _ _, EmptyString => None
  | String a p', String b s' =>
      if decide (a = b) then strip_prefix p' s' else None
  end.

(** [cut p s] locates the first (leftmost) occurrence of [p] in [s] and
    returns what stands before it and what stands after it. *)
Fixpoint cut (p s : string) : option (string * string) :=
  match strip_prefix p s with
  | Some r => Some (EmptyString, r)
  | None =>
      match s with
      | EmptyString => None
      | String c s' =>
          match cut p s' with
          | Some (a, b) => Some (String c a, b)
          | None => None
          end
      end
  end.

(** Whether the code unit [c] occurs in [s]. *)
Fixpoint has_char (c : ascii) (s : string) : bool :=
  match s with
  | EmptyString => false
  | String d s' => bool_decide (c = d) || has_char c s'
  end.

(** [String.prototype.includes] *)
Definition includes (p s : string) : bool :=
  match cut p s with Some _ => true | None => false end.

(** [String.prototype.endsWith] *)
Fixpoint endsWith (suffix s : string) : bool :=
  bool_decide (s = suffix)
  || match s with
     | EmptyString => false
     | String _ s' => endsWith suffix s'
     end.

Fixpoint split_fuel (fuel : nat) (sep s : string) : list string :=
  match fuel with
  | O => [s]
  | S fuel' =>
      match cut sep s with
      | None => [s]
      | Some (a, b) => a :: split_fuel fuel' sep b
      end
  end.

(** [String.prototype.split] with a non-empty string separator and no
    limit: the string is cut at every occurrence of the separator, the
    occurrences being found from left to right without overlap.  Every cut
    consumes at least one code unit, so [length s] rounds are enough. *)
Definition split (sep s : string) : list string :=
  split_fuel (String.length s) sep s.

(** [String.prototype.replace] with a string pattern: only the first
    occurrence is replaced.  (The replacement strings used by the script
    contain no [$] pattern.) *)
Definition replace (pat rep s : string) : string :=
  match cut pat s with
  | None => s
  | Some (a, b) => a +:+ rep +:+ b
  end.

(** White space and line terminators, as [String.prototype.trim] sees them,
    among the code units below 256: TAB, LF, VT, FF, CR, SP, NBSP. *)
Definition is_ws (c : ascii) : bool :=
  match c with
  | "009" | "010" | "011" | "012" | "013" | " " | "160" => true
  | _ => false
  end%char.

Fixpoint trim_start (s : string) : string :=
  match s with
  | EmptyString => EmptyString
  | String c s' => if is_ws c then trim_start s' else s
  end.

Fixpoint trim_end (s : string) : string :=
  match s with
  | EmptyString => EmptyString
  | String c s' =>
      match trim_end s' with
      | EmptyString => if is_ws c then EmptyString else String c EmptyString
      | t => String c t
      end
  end.

(** [String.prototype.trim] *)
Definition trim (s : string) : string := trim_end (trim_start s).

(** [x || d] for [x] a string or [undefined]: the empty string and
    [undefined] are the falsy values. *)
Definition or_else (x : option string) (d : string) : string :=
  match x with
  | None => d
  | Some EmptyString => d
  | Some v => v
  end.

End JsString.

(** ** Plain objects used as dictionaries

    [versions] starts as the literal [{}], whose prototype is
    [Object.prototype].  An assignment [o[k] = v] creates or overwrites an own
    property, except for the key [__proto__]: that one reaches the inherited
    accessor, whose setter ignores a string and returns.  A read [o[k]] that
    finds no own property yields [undefined] or an inherited member of
    [Object.prototype]; none of these is a string, and the script only ever
    compares the result with a string by [!==], so both are [None] here. *)

Module JsObject.

Definition proto_key : string := "__proto__".

Definition set (k v : string) (o : gmap string string) : gmap string string :=
  if decide (k = proto_key) then o else <[k := v]> o.

Definition get (o : gmap string string) (k : string) : option string :=
  o !! k.

End JsObject.

(** ** Filename parser: [getInstalledMods] *)

Record InstalledMods := mkInstalled {
  names : list string;
  versions : gmap string string
}.

Definition noMods : InstalledMods := mkInstalled [] ∅.

(** The version read from [itemSplit[1]]:
    [itemSplit[1].replace('_P.pak','').split('V')[1] || '1'] *)
Definition versionOf (part1 : string) : string :=
  JsString.or_else
    (JsString.split "V" (JsString.replace "_P.pak" "" part1) !! 1%nat) "1".

(** The callback given to [files.reduce].  [itemSplit.length > 1] holds
    exactly when [itemSplit[0]] and [itemSplit[1]] both exist. *)
Definition reducer (mods : InstalledMods) (item : string) : InstalledMods :=
  match JsString.split " - " item with
  | name :: part1 :: _ =>
      let version := versionOf part1 in
      mkInstalled (names mods ++ [JsString.trim name])
                  (JsObject.set name (JsString.trim version) (versions mods))
  | _ => mods
  end.

(** [files.sort()] without a comparator orders strings by their code units. *)
Definition sortFiles (files : list string) : list string :=
  merge_sort String.le files.

(** The synchronous part of [getInstalledMods], from the directory listing
    that [readdir] resolved with. *)
Definition getInstalledMods (files : list string) : InstalledMods :=
  foldl reducer noMods (sortFiles files).

(** The key under which [reducer] records a file, if it records it:
    [itemSplit[0]] when [itemSplit.length > 1]. *)
Definition nameOf (item : string) : option string :=
  match JsString.split " - " item with
  | name :: _ :: _ => Some name
  | _ => None
  end.

(** What stands between the first separator and the next one (or the end of
    the string when there is no other), given what follows the first. *)
Definition secondPart (rest : string) : string :=
  match JsString.cut " - " rest with
  | None => rest
  | Some (part1, _) => part1
  end.

(** ** Reconciler: [findMatchingMods] and [checkOutdatedMods] *)

Record RemoteModEntry := mkEntry {
  slug : string;
  DisplayName : string;
  Version : string;
  DownloadUrl : string
}.

Global Instance RemoteModEntry_eq_dec : EqDecision RemoteModEntry.
Proof. solve_decision. Defined.

(** [Array.prototype.indexOf] on an array of strings: the position of the
    first element strictly equal to [x], or [-1]. *)
Fixpoint indexOf (l : list string) (x : string) : Z :=
  match l with
  | [] => (-1)%Z
  | y :: l' =>
      if decide (y = x) then 0%Z
      else let i := indexOf l' x in
           if decide (i = (-1)%Z) then (-1)%Z else (i + 1)%Z
  end.

Definition findMatchingMods (remoteRegistryArray : list RemoteModEntry)
    (installedMods : InstalledMods) : list RemoteModEntry :=
  filter (λ item, indexOf (names installedMods) (DisplayName item) ≠ (-1)%Z)
         remoteRegistryArray.

Definition checkOutdatedMods (matchingMods : list RemoteModEntry)
    (installedMods : InstalledMods) : list RemoteModEntry :=
  filter (λ item, JsObject.get (versions installedMods) (DisplayName item)
                    ≠ Some (Version item))
         matchingMods.

(** ** Downloads and the run controller

    Promises are embedded by their settlement: an [outcome] says how a pending
    operation ends, and a schedule (a list of events) says in which order the
    pending operations and timers complete.  What the script does to the
    outside world is recorded, in order, as a list of [effect]s. *)

Inductive outcome (A : Type) : Type :=
  | Fulfilled (a : A)
  | Rejected (err : string).
Global Arguments Fulfilled {A} a.
Global Arguments Rejected {A} err.

Inductive effect : Type :=
  | StartBarStart (total : nat)
  | StartBarIncrement
  | StartBarStop
  | TotalBarStart (total : nat)
  | TotalBarIncrement
  | TotalBarStop
  | FileBarCreate (total : option nat)
  | FileBarUpdateTotal (total : option nat)
  | FileBarSetTotal (total : option nat)
  | HttpGetJson (url : string)
  | ReadDir (dir : string)
  | HttpHead (url : string)
  | HttpStream (url : string)
  | CreateWriteStream (dir fileName : string)
  | ConsoleError (msg err : string)
  | ConsoleLog (msg : string)
  | ProcessExit (code : Z).

Global Instance effect_eq_dec : EqDecision effect.
Proof. solve_decision. Defined.

(** How the network and the disk answer one download: the [HEAD] request
    either fails or yields headers, with or without a [content-length]; the
    piping of the body into the file either completes or fails. *)
Record netBehaviour := mkNet {
  headResult : outcome (option nat);
  pipelineResult : outcome unit
}.

(** Where one call of [downloadFile] stands. *)
Inductive taskState : Type :=
  | Probing                                  (* awaiting [got.head(url)] *)
  | Streaming (contentLength : option nat)   (* awaiting [pipeline(...)] *)
  | Succeeded
  | Failed (err : string).

Global Instance taskState_eq_dec : EqDecision taskState.
Proof. solve_decision. Defined.

Definition terminal (t : taskState) : bool :=
  match t with Succeeded | Failed _ => true | _ => false end.

Record task := mkTask {
  item : RemoteModEntry;
  net : netBehaviour;
  state : taskState
}.

(** The promise returned by [Promise.all(promises)]. *)
Inductive joinState : Type :=
  | JoinPending
  | JoinFulfilled
  | JoinRejected (err : string).

Global Instance joinState_eq_dec : EqDecision joinState.
Proof. solve_decision. Defined.

(** The callbacks handed to [setTimeout]. *)
Inductive timer : Type :=
  | StopAndFinish   (* 1000 ms: [totalDownloadsBar.stop(); finished(startBar)] *)
  | LogAndExit.     (* 2500 ms: [console.log(...); process.exit(0)] *)

Record runState := mkRun {
  tasks : list task;
  join : joinState;
  pendingTimer : option timer;
  finishedCalls : nat;
  exited : option Z;
  trace : list effect
}.

Inductive event : Type :=
  | TaskReady (i : nat)   (* the operation awaited by task [i] completes *)
  | TimerFires.           (* the pending timer is due *)

Definition modRegistry : string :=
  "https://raw.githubusercontent.com/ArcticEcho/DRG-Mods/main/Mod%20Index.json".

Section Run.

(** The module-level [modPath], set once from the command line. *)
Variable modPath : string.

(** The template literal of [downloadFile]. *)
Definition fileNameOf (it : RemoteModEntry) : string :=
  DisplayName it +:+ " - V" +:+ Version it +:+ " _P.pak".

(** [downloadFile] up to its first [await]. *)
Definition downloadFile_start (it : RemoteModEntry) : list effect :=
  [HttpHead (DownloadUrl it)].

(** [downloadFile] from the settlement of [got.head(url)] to the next
    suspension.  A rejected [await] throws, which rejects the promise of
    the [async] function. *)
Definition downloadFile_afterProbe (it : RemoteModEntry)
    (r : outcome (option nat)) : taskState * list effect :=
  match r with
  | Rejected e => (Failed e, [])
  | Fulfilled contentLength =>
      (Streaming contentLength,
       [FileBarCreate contentLength; FileBarUpdateTotal contentLength;
        HttpStream (DownloadUrl it);
        CreateWriteStream modPath (fileNameOf it)])
  end.

(** [downloadFile] from the settlement of [pipeline(...)]. *)
Definition downloadFile_afterPipeline (it : RemoteModEntry)
    (contentLength : option nat) (r : outcome unit) : taskState * list effect :=
  match r with
  | Fulfilled _ =>
      (Succeeded, [FileBarSetTotal contentLength; TotalBarIncrement])
  | Rejected e =>
      (Failed e, [ConsoleError ("Download failed for " +:+ fileNameOf it) e])
  end.

(** One task resumes. *)
Definition advance (t : task) : task * list effect :=
  match state t with
  | Probing =>
      let '(s, fx) := downloadFile_afterProbe (item t) (headResult (net t)) in
      (mkTask (item t) (net t) s, fx)
  | Streaming len =>
      let '(s, fx) :=
        downloadFile_afterPipeline (item t) len (pipelineResult (net t)) in
      (mkTask (item t) (net t) s, fx)
  | Succeeded | Failed _ => (t, [])
  end.

(** [finished(startBar)] *)
Definition finished (st : runState) : runState :=
  mkRun (tasks st) (join st) (Some LogAndExit) (S (finishedCalls st))
        (exited st) (trace st ++ [StartBarIncrement; StartBarStop]).

(** The reaction of [Promise.all(promises).then(...).catch(...)] to the
    state of its promises: it rejects with the first rejection it sees,
    fulfils once every promise is fulfilled, and settles only once. *)
Definition joinReact (st : runState) (settled : taskState) : runState :=
  match join st with
  | JoinPending =>
      match settled with
      | Failed e =>
          finished
            (mkRun (tasks st) (JoinRejected e) (pendingTimer st)
                   (finishedCalls st) (exited st)
                   (trace st ++ [TotalBarStop;
                                 ConsoleError "Failed to download files" e]))
      | _ =>
          if forallb (λ t, bool_decide (state t = Succeeded)) (tasks st)
          then mkRun (tasks st) JoinFulfilled (Some StopAndFinish)
                     (finishedCalls st) (exited st) (trace st)
          else st
      end
  | _ => st
  end.

(** [downloadOutdatedMods]: every download is started in turn, then the
    promises are joined. *)
Definition downloadOutdatedMods (outdatedMods : list (RemoteModEntry * netBehaviour))
    (st : runState) : runState :=
  joinReact
    (mkRun ((λ p, mkTask p.1 p.2 Probing) <$> outdatedMods)
           JoinPending (pendingTimer st) (finishedCalls st) (exited st)
           (trace st ++ [TotalBarStart (length outdatedMods)]
                     ++ mbind (λ p, downloadFile_start p.1) outdatedMods))
    Probing.

Definition fireTimer (st : runState) : runState :=
  match pendingTimer st with
  | None => st
  | Some StopAndFinish =>
      finished (mkRun (tasks st) (join st) None (finishedCalls st)
                      (exited st) (trace st ++ [TotalBarStop]))
  | Some LogAndExit =>
      mkRun (tasks st) (join st) None (finishedCalls st) (Some 0%Z)
            (trace st ++ [ConsoleLog "Finished updating Mods"; ProcessExit 0])
  end.

(** One turn of the event loop.  Once [process.exit] has been called nothing
    runs any more. *)
Definition step (st : runState) (ev : event) : runState :=
  match exited st with
  | Some _ => st
  | None =>
      match ev with
      | TimerFires => fireTimer st
      | TaskReady i =>
          match tasks st !! i with
          | None => st
          | Some t =>
              if terminal (state t) then st
              else
                let '(t', fx) := advance t in
                joinReact
                  (mkRun (<[i := t']> (tasks st)) (join st) (pendingTimer st)
                         (finishedCalls st) (exited st) (trace st ++ fx))
                  (state t')
          end
      end
  end.

Definition run (st : runState) (schedule : list event) : runState :=
  foldl step st schedule.

(** ** Run controller: [checkMods] *)

Definition started : list effect :=
  [StartBarStart 5;
   StartBarIncrement; HttpGetJson modRegistry;
   StartBarIncrement; ReadDir modPath].

Definition idle (fx : list effect) : runState :=
  mkRun [] JoinPending None 0 None fx.

(** The [.catch] at the end of [checkMods]. *)
Definition failedToGetData (err : string) (fx : list effect) : list effect :=
  fx ++ [StartBarStop; ConsoleError "Failed to get data" err].

(** [checkMods], from the start of the script to the point where the
    handler of the startup join has run.

    - [localeSort] stands for [remoteRegistryArray.sort] with
      [localeCompare], whose collation belongs to the host;
    - [registry] settles [fetchRegistry]: the entries of the fetched object
      in enumeration order, each with its slug;
    - [files] settles [readdir];
    - [dirFirst] tells which of the two settles first (the startup join
      rejects with the first rejection and ignores a later one);
    - [nets] tells how the network answers the download of an entry. *)
Definition checkMods
    (localeSort : list RemoteModEntry → list RemoteModEntry)
    (nets : RemoteModEntry → netBehaviour)
    (registry : outcome (list RemoteModEntry))
    (files : outcome (list string))
    (dirFirst : bool) : runState :=
  match registry, files with
  | Fulfilled remoteRegistry, Fulfilled listing =>
      let installedMods := getInstalledMods listing in
      let remoteRegistryArray := localeSort remoteRegistry in
      let matchingMods := findMatchingMods remoteRegistryArray installedMods in
      let outdatedMods := checkOutdatedMods matchingMods installedMods in
      let st := idle (started ++ [StartBarIncrement; StartBarIncrement]) in
      match outdatedMods with
      | [] => finished st
      | _ => downloadOutdatedMods ((λ it, (it, nets it)) <$> outdatedMods) st
      end
  | Rejected e, Fulfilled _ =>
      idle (if dirFirst
            then failedToGetData e (started ++ [StartBarIncrement])
            else failedToGetData e started ++ [StartBarIncrement])
  | Fulfilled _, Rejected e =>
      idle (if dirFirst
            then failedToGetData e started ++ [StartBarIncrement]
            else failedToGetData e (started ++ [StartBarIncrement]))
  | Rejected e1, Rejected e2 =>
      idle (failedToGetData (if dirFirst then e2 else e1) started)
  end.

(** The status the process ends with: the argument of [process.exit] if it
    was called; otherwise the process ends when nothing is left to run, with
    status [0], since the script never sets [process.exitCode] and leaves
    no rejection unhandled. *)
Definition exitStatus (st : runState) : Z :=
  match exited st with
  | Some code => code
  | None => 0%Z
  end.

End Run.

(** ** Observations on a run *)

Definition joinSettled (st : runState) : bool :=
  match join st with JoinPending => false | _ => true end.

Definition allTerminal (st : runState) : bool :=
  forallb (λ t, terminal (state t)) (tasks st).

(** The value shown by [totalDownloadsBar]: one increment per completed
    download. *)
Definition updatedCount (st : runState) : nat :=
  length (filter (λ fx, fx = TotalBarIncrement) (trace st)).

(** The failures written to the error stream by [downloadFile]. *)
Definition isDownloadFailure (fx : effect) : bool :=
  match fx with
  | ConsoleError msg _ => JsString.includes "Download failed for " msg
  | _ => false
  end.

Definition failuresLogged (st : runState) : nat :=
  length (filter (λ fx, isDownloadFailure fx = true) (trace st)).

(** The effects that only a download performs. *)
Definition isDownloadEffect (fx : effect) : bool :=
  match fx with
  | TotalBarStart _ | TotalBarIncrement | TotalBarStop
  | FileBarCreate _ | FileBarUpdateTotal _ | FileBarSetTotal _
  | HttpHead _ | HttpStream _ | CreateWriteStream _ _ => true
  | _ => false
  end.

(** What every reachable state of the download join satisfies: the join is
    pending exactly while no download has failed and not all have succeeded;
    [finished] is called at most once, and [process.exit] only with [0] and
    only after [finished]. *)
Definition joinConsistent (st : runState) : Prop :=
  match join st with
  | JoinPending =>
      Forall (λ t, ∀ e, state t ≠ Failed e) (tasks st)
      ∧ ¬ Forall (λ t, state t = Succeeded) (tasks st)
      ∧ finishedCalls st = 0 ∧ pendingTimer st = None
  | JoinFulfilled =>
      Forall (λ t, state t = Succeeded) (tasks st)
      ∧ ((pendingTimer st = Some StopAndFinish ∧ finishedCalls st = 0)
         ∨ finishedCalls st = 1)
  | JoinRejected e =>
      (∃ i t, tasks st !! i = Some t ∧ state t = Failed e)
      ∧ finishedCalls st = 1
  end
  ∧ (finishedCalls st = 1 →
     pendingTimer st = Some LogAndExit ∨ exited st = Some 0%Z)
  ∧ (exited st = None ∨ (exited st = Some 0%Z ∧ finishedCalls st = 1)).

(** The number of downloads that have completed. *)
Definition succeededCount (st : runState) : nat :=
  length (filter (λ t, state t = Succeeded) (tasks st)).

(** The probe of a task has answered. *)
Definition headAnswered (t : task) : bool :=
  match headResult (net t) with
  | Fulfilled _ => true
  | Rejected _ => false
  end.

(** The download of a task failed while its body was piped into the file,
    that is, in the [.catch] of [pipeline(...)], after the probe had
    answered. *)
Definition streamFailed (t : task) : bool :=
  match state t with
  | Failed _ => headAnswered t
  | _ => false
  end.

Definition streamFailedCount (st : runState) : nat :=
  length (filter (λ t, streamFailed t = true) (tasks st)).

(** A task streams only after its probe has answered. *)
Definition probed (t : task) : Prop :=
  ∀ len, state t = Streaming len → headAnswered t = true.

(** The stream failure of a task, if any, is on the error stream, with the
    name of its file and its error. *)
Definition failureLogged (st : runState) (t : task) : Prop :=
  ∀ e, streamFailed t = true → state t = Failed e →
    ConsoleError ("Download failed for " +:+ fileNameOf (item t)) e ∈ trace st.

Global Instance event_eq_dec : EqDecision event.
Proof. solve_decision. Defined.

(** How many times task [i] resumes in a schedule. *)
Definition readyCount (i : nat) (schedule : list event) : nat :=
  length (filter (λ ev, ev = TaskReady i) schedule).

(** The network answers the probe and delivers the whole body. *)
Definition netSucceeds (n : netBehaviour) : bool :=
  match headResult n, pipelineResult n with
  | Fulfilled _, Fulfilled _ => true
  | _, _ => false
  end.

(** ** Command line: the module-level statements that set [modPath] *)

(** [String.prototype.startsWith] *)
Definition startsWith (p s : string) : bool :=
  match JsString.strip_prefix p s with Some _ => true | None => false end.

Definition pakPath : string := "FSD\Content\Paks".

(** How the module-level statements end: with a thrown [Error], or with
    [modPath] set or left [undefined]. *)
Inductive startup : Type :=
  | StartupThrows (msg : string)
  | StartupDone (modPath : option string).

(** [process.argv.find((val) => val.startsWith('dir='))] *)
Definition cliArg (argv : list string) : option string :=
  List.find (startsWith "dir=") argv.

Section CommandLine.

(** [path.resolve], [fs.existsSync] and [path.join] belong to the host.
    [path.resolve] throws when the current directory cannot be read ([None]
    here); the other two never throw on strings. *)
Variable resolve : string → option string.
Variable existsSync : string → bool.
Variable pathJoin : string → string → string.

Definition setModPath (argv : list string) : startup :=
  match cliArg argv with
  | Some arg =>
      let pathArg := JsString.replace "dir=" "" arg in
      match resolve pathArg with
      | None =>
          StartupThrows
            "Please provide a valid installation directory path for Deep Rock Galactic"
      | Some gameDirPath =>
          if existsSync pathArg
          then StartupDone
                 (Some (if JsString.includes "Paks" gameDirPath
                        then gameDirPath
                        else pathJoin gameDirPath pakPath))
          else StartupDone None
      end
  | None =>
      StartupThrows
        "Please provide the installation directory path for Deep Rock Galactic"
  end.

End CommandLine.

(** * Properties *)

(** ** Facts about the string primitives *)

Module JsStringFacts.
Import JsString.

Lemma sapp_cons c s t : String c s +:+ t = String c (s +:+ t).
Proof. reflexivity. Qed.

Lemma sapp_empty_l s : "" +:+ s = s.
Proof. reflexivity. Qed.

Lemma sapp_empty_r s : s +:+ "" = s.
Proof. induction s as [|c s IH]; [done|]. by rewrite sapp_cons, IH. Qed.

Lemma sapp_assoc s t u : (s +:+ t) +:+ u = s +:+ t +:+ u.
Proof. induction s as [|c s IH]; [done|]. by rewrite !sapp_cons, IH. Qed.

Lemma slength_app s t :
  String.length (s +:+ t) = String.length s + String.length t.
Proof. induction s as [|c s IH]; [done|]. rewrite sapp_cons. simpl. lia. Qed.

(** *** Prefixes *)

Lemma strip_prefix_app p r : strip_prefix p (p +:+ r) = Some r.
Proof.
  induction p as [|c p IH]; [done|].
  rewrite sapp_cons. simpl. by rewrite decide_True.
Qed.

Lemma strip_prefix_Some p s r : strip_prefix p s = Some r → s = p +:+ r.
Proof.
  revert s. induction p as [|c p IH]; intros [|d s] H; simplify_eq/=; try done.
  case_decide; [|done]. subst. rewrite sapp_cons. f_equal. by apply IH.
Qed.

Lemma strip_prefix_app_l p u w r :
  strip_prefix p u = Some r → strip_prefix p (u +:+ w) = Some (r +:+ w).
Proof.
  intros ->%strip_prefix_Some. rewrite sapp_assoc. apply strip_prefix_app.
Qed.

(** A prefix of [u ++ w] that is no longer than [u] is a prefix of [u]. *)
Lemma strip_prefix_short p u w r :
  strip_prefix p (u +:+ w) = Some r → String.length p ≤ String.length u →
  is_Some (strip_prefix p u).
Proof.
  revert u. induction p as [|c p IH]; intros [|d u] H Hlen;
    [done|done|simpl in Hlen; lia|].
  rewrite sapp_cons in H. simpl in H. simpl in Hlen. simpl.
  case_decide; [|done]. apply IH in H; [done|lia].
Qed.

(** A prefix of [u ++ c :: w] in which [c] does not occur is a prefix of [u]. *)
Lemma strip_prefix_barrier p u c w r :
  has_char c p = false → strip_prefix p (u +:+ String c w) = Some r →
  is_Some (strip_prefix p u).
Proof.
  revert u. induction p as [|d p IH]; intros u Hc H; [by destruct u|].
  simpl in Hc. apply orb_false_iff in Hc as [Hcd Hc].
  apply bool_decide_eq_false in Hcd.
  destruct u as [|e u].
  - rewrite sapp_empty_l in H. simpl in H. by rewrite decide_False in H.
  - rewrite sapp_cons in H. simpl in H. simpl. case_decide; [|done]. eauto.
Qed.

(** *** First occurrence *)

Lemma cut_cons p c s :
  cut p (String c s) =
    match strip_prefix p (String c s) with
    | Some r => Some ("", r)
    | None => match cut p s with
              | Some (a, b) => Some (String c a, b)
              | None => None
              end
    end.
Proof. reflexivity. Qed.

Lemma cut_Some p s a b : cut p s = Some (a, b) → s = a +:+ p +:+ b.
Proof.
  revert a b. induction s as [|c s IH]; intros a b H.
  - simpl in H. destruct (strip_prefix p "") eqn:E; simplify_eq/=.
    by apply strip_prefix_Some in E.
  - rewrite cut_cons in H. destruct (strip_prefix p (String c s)) eqn:E.
    + simplify_eq/=. by apply strip_prefix_Some in E.
    + destruct (cut p s) as [[a' b']|] eqn:E'; simplify_eq/=.
      rewrite sapp_cons. f_equal. by apply IH.
Qed.

Lemma cut_length p s a b :
  cut p s = Some (a, b) →
  String.length s = String.length a + String.length p + String.length b.
Proof. intros ->%cut_Some. rewrite !slength_app. lia. Qed.

Lemma includes_false_cut p s : includes p s = false → cut p s = None.
Proof. unfold includes. by destruct (cut p s). Qed.

Lemma includes_cons p c s :
  includes p (String c s) =
    bool_decide (is_Some (strip_prefix p (String c s))) || includes p s.
Proof.
  unfold includes. rewrite cut_cons.
  destruct (strip_prefix p (String c s)); [done|].
  by destruct (cut p s) as [[??]|].
Qed.

Lemma includes_empty p : p ≠ "" → includes p "" = false.
Proof. by destruct p. Qed.

(** If the pattern is absent from [a] followed by the pattern less its last
    code unit, then the first occurrence in [a ++ p ++ b] is the one
    displayed. *)
Lemma cut_first p q c a b :
  p = q +:+ String c "" →
  includes p (a +:+ q) = false →
  cut p (a +:+ p +:+ b) = Some (a, b).
Proof.
  intros Hp. induction a as [|x a IH]; intros H.
  - rewrite sapp_empty_l. destruct (p +:+ b) eqn:E.
    + simpl. rewrite <-E, strip_prefix_app. done.
    + rewrite cut_cons, <-E, strip_prefix_app. done.
  - rewrite sapp_cons in H. rewrite includes_cons in H.
    apply orb_false_iff in H as [H1 H2]. apply bool_decide_eq_false in H1.
    rewrite sapp_cons, cut_cons.
    destruct (strip_prefix p (String x (a +:+ p +:+ b))) eqn:E.
    + exfalso. apply H1.
      assert (String x (a +:+ p +:+ b)
              = String x (a +:+ q) +:+ String c b) as Heq.
      { rewrite Hp, sapp_cons, !sapp_assoc. done. }
      rewrite Heq in E. eapply strip_prefix_short; [exact E|].
      rewrite Hp, slength_app. simpl. rewrite slength_app. lia.
    + by rewrite (IH H2).
Qed.

(** An occurrence cannot run over a code unit that the pattern does not
    have after its first position: it lies before it, or starts at it or
    after it. *)
Lemma includes_barrier d p u c w :
  has_char c p = false →
  includes (String d p) (u +:+ String c w)
  = includes (String d p) u || includes (String d p) (String c w).
Proof.
  intros Hc. induction u as [|x u IH].
  - by rewrite sapp_empty_l.
  - rewrite sapp_cons, (includes_cons _ x (u +:+ _)), (includes_cons _ x u), IH.
    rewrite <-orb_assoc. f_equal.
    apply bool_decide_ext. split; intros [r Hr].
    + simpl in Hr. case_decide; [|done]. subst x.
      eapply strip_prefix_barrier in Hr as [r' Hr']; [|done].
      simpl. rewrite decide_True by done. eauto.
    + rewrite <-sapp_cons. erewrite strip_prefix_app_l; eauto.
Qed.

(** An occurrence of the separator [" - "] in [s] followed by a space lies in
    [s], or ends on that space (then [s] ends in [" -"]), or starts at that
    space or after it. *)
Lemma includes_sep_app s r :
  includes " - " (s +:+ String " " r)
  = includes " - " s || endsWith " -" s || includes " - " (String " " r).
Proof.
  induction s as [|c s IH]; [done|].
  rewrite sapp_cons, (includes_cons _ c (s +:+ _)), (includes_cons _ c s), IH.
  cbn [endsWith].
  assert (bool_decide (is_Some (strip_prefix " - "
                                  (String c (s +:+ String " " r))))
          = bool_decide (is_Some (strip_prefix " - " (String c s)))
            || bool_decide (String c s = " -")) as ->.
  { rewrite <-bool_decide_or. apply bool_decide_ext.
    destruct s as [|d [|e s]]; rewrite ?sapp_cons, ?sapp_empty_l; simpl;
      repeat case_decide; simplify_eq/=;
      split; try (intros [[x Hx]|Hx]); try (intros [x Hx]);
      simplify_eq/=; eauto. }
  destruct (bool_decide (is_Some (strip_prefix " - " (String c s))));
    destruct (bool_decide (String c s = " -"));
    destruct (includes " - " s); destruct (endsWith " -" s); done.
Qed.

(** [s] followed by [" -"], or by a space, holds a separator exactly when
    [s] holds one or ends in [" -"]. *)
Lemma includes_sep_snoc s :
  includes " - " s = false → endsWith " -" s = false →
  includes " - " (s +:+ " -") = false ∧ includes " - " (s +:+ " ") = false.
Proof.
  intros Hs He. split.
  - change (s +:+ " -") with (s +:+ String " " "-").
    by rewrite includes_sep_app, Hs, He.
  - change (s +:+ " ") with (s +:+ String " " "").
    by rewrite includes_sep_app, Hs, He.
Qed.

(** *** [split] and [replace] *)

Lemma split_fuel_enough sep s n m :
  sep ≠ "" → String.length s ≤ n → String.length s ≤ m →
  split_fuel n sep s = split_fuel m sep s.
Proof.
  intros Hsep. revert s m.
  induction n as [|n IH]; intros s m Hn Hm.
  - destruct s; [|simpl in Hn; lia]. destruct m; [done|].
    simpl. by destruct sep.
  - destruct m as [|m].
    + destruct s; [|simpl in Hm; lia]. simpl. by destruct sep.
    + simpl. destruct (cut sep s) as [[a b]|] eqn:E; [|done].
      apply cut_length in E. f_equal.
      assert (0 < String.length sep) by (destruct sep; [done|simpl; lia]).
      apply IH; lia.
Qed.

Lemma split_cut_None sep s : cut sep s = None → split sep s = [s].
Proof.
  unfold split. intros H. destruct (String.length s); [done|].
  simpl. by rewrite H.
Qed.

Lemma split_cut_Some sep s a b :
  sep ≠ "" → cut sep s = Some (a, b) → split sep s = a :: split sep b.
Proof.
  intros Hsep H. unfold split. pose proof (cut_length _ _ _ _ H) as Hlen.
  assert (0 < String.length sep) by (destruct sep; [done|simpl; lia]).
  destruct (String.length s) as [|n] eqn:En; [lia|].
  simpl. rewrite H. f_equal. apply split_fuel_enough; [done|lia|lia].
Qed.

Lemma replace_cut_Some pat rep s a b :
  cut pat s = Some (a, b) → replace pat rep s = a +:+ rep +:+ b.
Proof. unfold replace. by intros ->. Qed.

(** *** [trim] *)

Lemma trim_start_length s : String.length (trim_start s) ≤ String.length s.
Proof. induction s as [|c s IH]; simpl; [done|]. destruct (is_ws c); simpl; lia. Qed.

Lemma trim_end_length s : String.length (trim_end s) ≤ String.length s.
Proof.
  induction s as [|c s IH]; simpl; [done|].
  destruct (trim_end s); [destruct (is_ws c)|]; simpl in *; lia.
Qed.

Lemma trim_end_snoc_ws s c : is_ws c = true → trim_end (s +:+ String c "") = trim_end s.
Proof.
  intros Hc. induction s as [|d s IH].
  - rewrite sapp_empty_l. simpl. by rewrite Hc.
  - rewrite sapp_cons. simpl. by rewrite IH.
Qed.

(** A string that [trim] leaves alone is still what [trim] returns after a
    white space is appended to it. *)
Lemma trim_snoc_ws s c : is_ws c = true → trim s = s → trim (s +:+ String c "") = s.
Proof.
  intros Hc Hs. destruct s as [|d s].
  - rewrite sapp_empty_l. unfold trim. simpl. by rewrite Hc.
  - unfold trim in *. rewrite sapp_cons. simpl in *.
    destruct (is_ws d) eqn:Hd.
    + exfalso. pose proof (trim_end_length (trim_start s)) as H1.
      pose proof (trim_start_length s) as H2. rewrite Hs in H1. simpl in H1. lia.
    + rewrite <-sapp_cons, trim_end_snoc_ws; done.
Qed.

End JsStringFacts.

(** ** Filename parser *)

Section Parser.
Import JsString JsStringFacts.

Lemma split_sep_cut item :
  split " - " item =
    match cut " - " item with
    | None => [item]
    | Some (name, rest) => name :: split " - " rest
    end.
Proof.
  destruct (cut " - " item) as [[name rest]|] eqn:E.
  - by apply split_cut_Some.
  - by apply split_cut_None.
Qed.

Lemma reducer_cut mods item :
  reducer mods item =
    match cut " - " item with
    | None => mods
    | Some (name, rest) =>
        mkInstalled (names mods ++ [trim name])
          (JsObject.set name (trim (versionOf (secondPart rest)))
                        (versions mods))
    end.
Proof.
  unfold reducer, secondPart. rewrite split_sep_cut.
  destruct (cut " - " item) as [[name rest]|]; [|done].
  rewrite split_sep_cut. by destruct (cut " - " rest) as [[part1 more]|].
Qed.

Lemma nameOf_cut item : nameOf item = fst <$> cut " - " item.
Proof.
  unfold nameOf. rewrite split_sep_cut.
  destruct (cut " - " item) as [[name rest]|]; [|done].
  rewrite split_sep_cut. by destruct (cut " - " rest) as [[part1 more]|].
Qed.

Lemma sortFiles_singleton item : sortFiles [item] = [item].
Proof. reflexivity. Qed.

Lemma getInstalledMods_singleton item :
  getInstalledMods [item] = reducer noMods item.
Proof. reflexivity. Qed.

Lemma includes_cons_ne d p c s :
  c ≠ d → includes (String d p) (String c s) = includes (String d p) s.
Proof.
  intros Hne. rewrite includes_cons. simpl. by rewrite decide_False.
Qed.

Lemma or_else_nonempty v d : v ≠ "" → or_else (Some v) d = v.
Proof. by destruct v. Qed.

(** The version read from ["V" ++ k ++ tail] when the suffix [_P.pak] is
    the first occurrence of that pattern and [k] holds no ["V"]. *)
Lemma versionOf_V k sp :
  includes "_P.pak" k = false → includes "V" (k +:+ sp) = false →
  (sp = "" ∨ sp = " ") → k +:+ sp ≠ "" →
  versionOf ("V" +:+ k +:+ sp +:+ "_P.pak") = k +:+ sp.
Proof.
  intros Hpak HV Hsp Hne. unfold versionOf.
  assert (cut "_P.pak" ("V" +:+ k +:+ sp +:+ "_P.pak")
          = Some ("V" +:+ k +:+ sp, "")) as Hcut.
  { replace ("V" +:+ k +:+ sp +:+ "_P.pak")
      with (("V" +:+ k +:+ sp) +:+ "_P.pak" +:+ "")
      by (rewrite !sapp_assoc; reflexivity).
    apply (cut_first "_P.pak" "_P.pa" "k"%char); [done|].
    change (("V" +:+ k +:+ sp) +:+ "_P.pa")
      with (String "V" ((k +:+ sp) +:+ "_P.pa")).
    rewrite includes_cons_ne by done.
    destruct Hsp as [-> | ->].
    - rewrite sapp_empty_r.
      change (k +:+ "_P.pa") with (k +:+ String "_" "P.pa").
      rewrite includes_barrier by done. by rewrite Hpak.
    - rewrite sapp_assoc.
      change (k +:+ " " +:+ "_P.pa") with (k +:+ String " " "_P.pa").
      rewrite includes_barrier by done. by rewrite Hpak. }
  rewrite (replace_cut_Some _ _ _ _ _ Hcut).
  rewrite sapp_empty_l, sapp_empty_r.
  change ("V" +:+ k +:+ sp) with (String "V" (k +:+ sp)).
  assert (cut "V" (String "V" (k +:+ sp)) = Some ("", k +:+ sp)) as HcV.
  { rewrite cut_cons. reflexivity. }
  rewrite (split_cut_Some "V" _ _ _ ltac:(done) HcV).
  rewrite (split_cut_None _ _ (includes_false_cut _ _ HV)).
  simpl. by apply or_else_nonempty.
Qed.

(** What follows the separator holds no other separator. *)
Lemma secondPart_V k tail :
  includes " - " (k +:+ tail) = false →
  secondPart ("V" +:+ k +:+ tail) = "V" +:+ k +:+ tail.
Proof.
  intros H. unfold secondPart.
  change ("V" +:+ k +:+ tail) with (String "V" (k +:+ tail)).
  rewrite (includes_false_cut " - " (String "V" (k +:+ tail))); [done|].
  by rewrite includes_cons_ne.
Qed.

Lemma reducer_first_separator mods name rest :
  includes " - " (name +:+ " -") = false →
  reducer mods (name +:+ " - " +:+ rest)
  = mkInstalled (names mods ++ [trim name])
      (JsObject.set name (trim (versionOf (secondPart rest))) (versions mods)).
Proof.
  intros H. rewrite reducer_cut.
  by rewrite (cut_first " - " " -" " "%char name rest eq_refl H).
Qed.

End Parser.

Section ParserClaims.
Import JsString JsStringFacts.

(** C4 (as stated, refuted).  The file name is not split once: for
    ["A - B - V2_P.pak"] the second part is ["B"], not the remainder
    ["B - V2_P.pak"], and the version recorded is the default ["1"], not
    ["2"]. *)
Lemma split_once_counterexample :
  split " - " "A - B - V2_P.pak" = ["A"; "B"; "V2_P.pak"] ∧
  split " - " "A - B - V2_P.pak" !! 1%nat ≠ Some "B - V2_P.pak" ∧
  JsObject.get (versions (getInstalledMods ["A - B - V2_P.pak"])) "A" = Some "1" ∧
  JsObject.get (versions (getInstalledMods ["A - B - V2_P.pak"])) "A" ≠ Some "2".
Proof. by vm_compute. Qed.

(** C4 (amended).  [reducer] cuts the file name at every occurrence of the
    separator [" - "].  A file name without separator is skipped.
    Otherwise the name is what stands before the first separator, and the
    version is extracted from what stands between the first separator and
    the next one (or the end of the file name, when there is no other
    separator).  For ["A - B - V2_P.pak"] the version is extracted from
    ["B"] and is the default ["1"]. *)
Theorem reducer_splits_at_every_separator mods item :
  reducer mods item =
    match cut " - " item with
    | None => mods
    | Some (name, rest) =>
        mkInstalled (names mods ++ [trim name])
          (JsObject.set name (trim (versionOf (secondPart rest)))
                        (versions mods))
    end
  ∧ split " - " "A - B - V2_P.pak" = ["A"; "B"; "V2_P.pak"]
  ∧ secondPart "B - V2_P.pak" = "B"
  ∧ getInstalledMods ["A - B - V2_P.pak"] = mkInstalled ["A"] {["A" := "1"]}.
Proof.
  split; [apply reducer_cut|]. by vm_compute.
Qed.

(** C5 (the code departs from the claim).  The name pushed on [names] is
    trimmed, the key written in [versions] is not: for a file name with two
    spaces before the separator the name ["Foo"] is listed, its version is
    filed under ["Foo "], and the lookup of the listed name finds nothing.
    A registry entry for ["Foo"] at the installed version is then matched
    and reported outdated. *)
Theorem versions_key_not_trimmed :
  let mods := getInstalledMods ["Foo  - V1_P.pak"] in
  names mods = ["Foo"] ∧
  JsObject.get (versions mods) "Foo" = None ∧
  JsObject.get (versions mods) "Foo " = Some "1" ∧
  ∀ s u, let entry := mkEntry s "Foo" "1" u in
    checkOutdatedMods (findMatchingMods [entry] mods) mods = [entry].
Proof.
  cbv zeta. split_and!; by vm_compute.
Qed.

(** C6 (as stated, refuted).  ["Foo - V1 - 2_P.pak"] has the form
    ["Name - V<k>_P.pak"] with [Name = "Foo"] free of [" - "] and
    [k = "1 - 2"] free of ["V"], and the version recorded is ["1"]. *)
Lemma name_version_counterexample :
  "Foo - V1 - 2_P.pak" = "Foo" +:+ " - V" +:+ "1 - 2" +:+ "_P.pak" ∧
  includes " - " "Foo" = false ∧ includes "V" "1 - 2" = false ∧
  getInstalledMods ["Foo - V1 - 2_P.pak"] = mkInstalled ["Foo"] {["Foo" := "1"]} ∧
  getInstalledMods ["Foo - V1 - 2_P.pak"] ≠ mkInstalled ["Foo"] {["Foo" := "1 - 2"]}.
Proof. by vm_compute. Qed.

(** C6 (amended).  For a file name ["Name - V<k>_P.pak"] where [Name] holds
    no [" - "], does not end in [" -"], is trimmed and is not [__proto__],
    and where [k] is not empty, is trimmed and holds no ["V"], no [" - "] and
    no ["_P.pak"], parsing yields the name [Name] and the version [k]; for
    ["Name - _P.pak"] the version is the default ["1"]. *)
Theorem parse_name_version Name k :
  includes " - " Name = false →
  endsWith " -" Name = false →
  trim Name = Name →
  Name ≠ JsObject.proto_key →
  (k ≠ "" → trim k = k → includes "V" k = false →
   includes " - " k = false → includes "_P.pak" k = false →
   getInstalledMods [Name +:+ " - V" +:+ k +:+ "_P.pak"]
   = mkInstalled [Name] {[Name := k]})
  ∧ getInstalledMods [Name +:+ " - _P.pak"] = mkInstalled [Name] {[Name := "1"]}.
Proof.
  intros Hsep0 Hend Htrim Hproto.
  destruct (includes_sep_snoc Name Hsep0 Hend) as [Hsep _]. split.
  - intros Hk Hktrim HV Hksep Hpak.
    rewrite getInstalledMods_singleton.
    change (Name +:+ " - V" +:+ k +:+ "_P.pak")
      with (Name +:+ " - " +:+ "V" +:+ k +:+ "_P.pak").
    rewrite reducer_first_separator by done.
    rewrite secondPart_V.
    + pose proof (versionOf_V k "") as Hv. rewrite !sapp_empty_r in Hv.
      change ("" +:+ "_P.pak") with "_P.pak" in Hv.
      rewrite Hv by auto. rewrite Htrim, Hktrim.
      unfold JsObject.set. simpl. by rewrite decide_False, insert_empty by done.
    + change (k +:+ "_P.pak") with (k +:+ String "_" "P.pak").
      rewrite includes_barrier by done. by rewrite Hksep.
  - rewrite getInstalledMods_singleton.
    change (Name +:+ " - _P.pak") with (Name +:+ " - " +:+ "_P.pak").
    rewrite reducer_first_separator by done.
    change (trim (versionOf (secondPart "_P.pak"))) with "1".
    rewrite Htrim. unfold JsObject.set. simpl.
    by rewrite decide_False, insert_empty by done.
Qed.

Lemma parse_name_version_witness :
  includes " - " "Foo" = false ∧ endsWith " -" "Foo" = false ∧
  trim "Foo" = "Foo" ∧ "Foo" ≠ JsObject.proto_key ∧
  getInstalledMods ["Foo - V2_P.pak"] = mkInstalled ["Foo"] {["Foo" := "2"]} ∧
  getInstalledMods ["Foo - _P.pak"] = mkInstalled ["Foo"] {["Foo" := "1"]}.
Proof.
  assert (includes " - " "Foo" = false) as H0 by reflexivity.
  assert (endsWith " -" "Foo" = false) as H1 by reflexivity.
  assert (trim "Foo" = "Foo") as H2 by reflexivity.
  assert ("Foo" ≠ JsObject.proto_key) as H3 by (by vm_compute).
  destruct (parse_name_version "Foo" "2" H0 H1 H2 H3) as [Ha Hb].
  split_and!; [done|done|done|done| |exact Hb].
  apply Ha; [done|reflexivity|reflexivity|reflexivity|reflexivity].
Defined.

End ParserClaims.

(** ** Duplicate names: the last file in sorted order wins *)

Section LastWriter.
Import JsString JsStringFacts.

Lemma set_lookup_proto k v (o : gmap string string) :
  JsObject.set k v o !! JsObject.proto_key = o !! JsObject.proto_key.
Proof.
  unfold JsObject.set. case_decide; [done|]. by rewrite lookup_insert_ne.
Qed.

Lemma reducer_lookup_proto mods item :
  versions (reducer mods item) !! JsObject.proto_key
  = versions mods !! JsObject.proto_key.
Proof.
  rewrite reducer_cut. destruct (cut " - " item) as [[name rest]|]; [|done].
  apply set_lookup_proto.
Qed.

Lemma foldl_reducer_lookup_proto l mods :
  versions (foldl reducer mods l) !! JsObject.proto_key
  = versions mods !! JsObject.proto_key.
Proof.
  revert mods. induction l as [|f l IH]; intros mods; [done|].
  simpl. by rewrite IH, reducer_lookup_proto.
Qed.

(** A file recorded under another key leaves the entry of [name] alone. *)
Lemma reducer_get_other mods item name :
  nameOf item ≠ Some name →
  JsObject.get (versions (reducer mods item)) name
  = JsObject.get (versions mods) name.
Proof.
  rewrite nameOf_cut, reducer_cut.
  destruct (cut " - " item) as [[name' rest]|]; [|done].
  simpl. intros Hne. unfold JsObject.get, JsObject.set.
  case_decide; [done|]. rewrite lookup_insert_ne; [done|congruence].
Qed.

Lemma foldl_reducer_get_other l mods name :
  Forall (λ f, nameOf f ≠ Some name) l →
  JsObject.get (versions (foldl reducer mods l)) name
  = JsObject.get (versions mods) name.
Proof.
  intros H. revert mods. induction H as [|f l Hf _ IH]; intros mods; [done|].
  simpl. by rewrite IH, reducer_get_other.
Qed.

(** A file recorded under [name] overwrites whatever was there. *)
Lemma reducer_get_same mods1 mods2 item name :
  nameOf item = Some name →
  versions mods1 !! JsObject.proto_key = versions mods2 !! JsObject.proto_key →
  JsObject.get (versions (reducer mods1 item)) name
  = JsObject.get (versions (reducer mods2 item)) name.
Proof.
  rewrite nameOf_cut, !reducer_cut.
  destruct (cut " - " item) as [[name' rest]|]; [|done].
  simpl. intros [= ->] Hproto. unfold JsObject.get, JsObject.set.
  case_decide as Hk; [by subst name|]. by rewrite !lookup_insert_eq.
Qed.

Lemma foldl_reducer_names l mods :
  names (foldl reducer mods l) = names mods ++ (trim <$> omap nameOf l).
Proof.
  revert mods. induction l as [|f l IH]; intros mods.
  - simpl. by rewrite app_nil_r.
  - simpl. rewrite IH, nameOf_cut, reducer_cut.
    destruct (cut " - " f) as [[name rest]|]; simpl; [|done].
    by rewrite <-app_assoc.
Qed.





End LastWriter.

(** ** Reconciler *)

Section Reconciler.

Lemma indexOf_range l x : indexOf l x = (-1)%Z ∨ (0 ≤ indexOf l x)%Z.
Proof.
  induction l as [|y l IH]; simpl; [by left|].
  repeat case_decide; lia.
Qed.

(** [indexOf] answers [-1] exactly for the strings that are not in the
    array. *)
Lemma indexOf_elem_of l x : indexOf l x ≠ (-1)%Z ↔ x ∈ l.
Proof.
  induction l as [|y l IH]; simpl.
  - split; [done|]. by intros ?%elem_of_nil.
  - rewrite elem_of_cons. destruct (decide (y = x)) as [->|Hne].
    + split; [by left|lia].
    + destruct (decide (indexOf l x = (-1)%Z)) as [Hi|Hi].
      * split; [done|]. intros [->|Hx]; [done|]. by apply IH in Hx.
      * split; [intros _; right; by apply IH|].
        intros _. pose proof (indexOf_range l x). lia.
Qed.

Lemma filter_eq_nil {A} (P : A → Prop) `{!∀ x, Decision (P x)} (l : list A) :
  filter P l = [] ↔ Forall (λ x, ¬ P x) l.
Proof.
  induction l as [|x l IH]; [by split; [constructor|]|].
  destruct (decide (P x)).
  - rewrite filter_cons_True by done. split; [done|]. by inversion 1.
  - rewrite filter_cons_False by done. rewrite IH.
    split; [by constructor|by inversion 1].
Qed.

Lemma filter_eq_self {A} (P : A → Prop) `{!∀ x, Decision (P x)} (l : list A) :
  filter P l = l ↔ Forall P l.
Proof.
  induction l as [|x l IH]; [by split; [constructor|]|].
  destruct (decide (P x)).
  - rewrite filter_cons_True by done. split.
    + intros [= Hf]. constructor; [done|by apply IH].
    + inversion 1; subst. f_equal. by apply IH.
  - rewrite filter_cons_False by done. split; [|by inversion 1].
    intros Hf. pose proof (length_filter P l) as Hlen.
    rewrite Hf in Hlen. simpl in Hlen. lia.
Qed.

(** C8.  [findMatchingMods] returns exactly the registry entries whose
    [DisplayName] is one of the installed names, in registry order; names
    are compared as strings, so case matters.  For the registry
    [[A; B]] and the installed names [["A"]] the result is [[A]]. *)
Theorem findMatchingMods_exact registry installed :
  findMatchingMods registry installed
  = filter (λ e, DisplayName e ∈ names installed) registry
  ∧ findMatchingMods registry installed `sublist_of` registry
  ∧ (∀ e, e ∈ findMatchingMods registry installed
          ↔ e ∈ registry ∧ DisplayName e ∈ names installed)
  ∧ (∀ s1 v1 u1 s2 v2 u2 vers,
       findMatchingMods [mkEntry s1 "A" v1 u1; mkEntry s2 "B" v2 u2]
                        (mkInstalled ["A"] vers)
       = [mkEntry s1 "A" v1 u1])
  ∧ (∀ s v u vers,
       findMatchingMods [mkEntry s "a" v u] (mkInstalled ["A"] vers) = []).
Proof.
  assert (findMatchingMods registry installed
          = filter (λ e, DisplayName e ∈ names installed) registry) as Heq.
  { unfold findMatchingMods. apply list_filter_iff.
    intros e. apply indexOf_elem_of. }
  split_and!.
  - done.
  - rewrite Heq. apply sublist_filter.
  - intros e. rewrite Heq, list_elem_of_filter. tauto.
  - intros. by vm_compute.
  - intros. by vm_compute.
Qed.

(** C9.  [checkOutdatedMods] is the order-preserving filter that keeps an
    entry exactly when its [Version] is not the string recorded in
    [versions] for its [DisplayName] (an entry with nothing recorded is
    kept); entries that occur several times are kept as often.  The result
    is empty exactly when every entry's [Version] equals the recorded one,
    and is the whole input exactly when every entry's [Version] differs.
    Versions are compared as strings: ["1.0"] differs from ["1"], and an
    entry at the recorded version is dropped. *)
Theorem checkOutdatedMods_exact matching installed :
  checkOutdatedMods matching installed
  = filter (λ e, versions installed !! DisplayName e ≠ Some (Version e))
           matching
  ∧ checkOutdatedMods matching installed `sublist_of` matching
  ∧ (∀ e, e ∈ checkOutdatedMods matching installed
          ↔ e ∈ matching
            ∧ versions installed !! DisplayName e ≠ Some (Version e))
  ∧ (checkOutdatedMods matching installed = []
     ↔ Forall (λ e, versions installed !! DisplayName e = Some (Version e))
              matching)
  ∧ (checkOutdatedMods matching installed = matching
     ↔ Forall (λ e, versions installed !! DisplayName e ≠ Some (Version e))
              matching)
  ∧ (∀ s u nms,
       checkOutdatedMods [mkEntry s "A" "1.0" u]
                         (mkInstalled nms {["A" := "1"]})
       = [mkEntry s "A" "1.0" u])
  ∧ (∀ s u nms,
       checkOutdatedMods [mkEntry s "A" "1" u]
                         (mkInstalled nms {["A" := "1"]})
       = [])
  ∧ (∀ s u nms,
       checkOutdatedMods [mkEntry s "A" "1" u] (mkInstalled nms ∅)
       = [mkEntry s "A" "1" u])
  ∧ (∀ s u nms,
       checkOutdatedMods
         [mkEntry s "A" "2" u; mkEntry s "B" "2" u; mkEntry s "A" "2" u]
         (mkInstalled nms {["A" := "1"; "B" := "2"]})
       = [mkEntry s "A" "2" u; mkEntry s "A" "2" u]).
Proof.
  unfold checkOutdatedMods, JsObject.get. split_and!.
  - done.
  - apply sublist_filter.
  - intros e. rewrite list_elem_of_filter. tauto.
  - rewrite filter_eq_nil. apply Forall_iff. intros e.
    destruct (decide (versions installed !! DisplayName e
                      = Some (Version e))); tauto.
  - apply filter_eq_self.
  - intros. by vm_compute.
  - intros. by vm_compute.
  - intros. by vm_compute.
  - intros. by vm_compute.
Qed.

End Reconciler.

(** ** The name of a downloaded file, read back by the parser *)

Section RoundTrip.
Import JsString JsStringFacts.

(** C10 (as stated, refuted).  The entry ["Foo"] at version ["1 - beta"]
    meets the conditions of the claim; its file is read back as version
    ["1"], and the entry is still reported outdated. *)
Lemma roundtrip_counterexample :
  let entry := mkEntry "foo" "Foo" "1 - beta" "https://example.org/foo.pak" in
  let mods := getInstalledMods [fileNameOf entry] in
  includes " - " (DisplayName entry) = false ∧
  includes "V" (Version entry) = false ∧
  trim (DisplayName entry) = DisplayName entry ∧
  trim (Version entry) = Version entry ∧
  fileNameOf entry = "Foo - V1 - beta _P.pak" ∧
  mods = mkInstalled ["Foo"] {["Foo" := "1"]} ∧
  JsObject.get (versions mods) (DisplayName entry) ≠ Some (Version entry) ∧
  checkOutdatedMods (findMatchingMods [entry] mods) mods = [entry].
Proof. cbv zeta. split_and!; by vm_compute. Qed.

(** C10 (amended).  For an entry whose [DisplayName] holds no [" - "], does
    not end in [" -"], is trimmed and is not [__proto__], and whose [Version]
    holds no ["V"], no ["_P.pak"] and no [" - "], does not end in [" -"] and
    is trimmed, parsing the name of the downloaded file as a one-element
    listing yields the name [DisplayName] and the version [Version]: the
    entry is matched and is not reported outdated. *)
Theorem download_name_roundtrip entry :
  includes " - " (DisplayName entry) = false →
  endsWith " -" (DisplayName entry) = false →
  trim (DisplayName entry) = DisplayName entry →
  DisplayName entry ≠ JsObject.proto_key →
  includes "V" (Version entry) = false →
  includes "_P.pak" (Version entry) = false →
  includes " - " (Version entry) = false →
  endsWith " -" (Version entry) = false →
  trim (Version entry) = Version entry →
  getInstalledMods [fileNameOf entry]
  = mkInstalled [DisplayName entry] {[DisplayName entry := Version entry]}
  ∧ findMatchingMods [entry] (getInstalledMods [fileNameOf entry]) = [entry]
  ∧ checkOutdatedMods [entry] (getInstalledMods [fileNameOf entry]) = [].
Proof.
  destruct entry as [sl D Ver url]. simpl.
  intros HD0 HDend HDtrim Hproto HV Hpak Hsep0 Hend Htrim.
  destruct (includes_sep_snoc D HD0 HDend) as [HD _].
  destruct (includes_sep_snoc Ver Hsep0 Hend) as [_ Hsep].
  assert (getInstalledMods [fileNameOf (mkEntry sl D Ver url)]
          = mkInstalled [D] {[D := Ver]}) as Heq.
  { rewrite getInstalledMods_singleton. unfold fileNameOf. simpl.
    change (D +:+ " - V" +:+ Ver +:+ " _P.pak")
      with (D +:+ " - " +:+ "V" +:+ Ver +:+ " _P.pak").
    rewrite reducer_first_separator by done.
    rewrite secondPart_V.
    - change ("V" +:+ Ver +:+ " _P.pak")
        with ("V" +:+ Ver +:+ " " +:+ "_P.pak").
      rewrite versionOf_V.
      + rewrite HDtrim, trim_snoc_ws by done.
        unfold JsObject.set. simpl.
        by rewrite decide_False, insert_empty by done.
      + done.
      + change (Ver +:+ " ") with (Ver +:+ String " " "").
        rewrite (includes_barrier "V" "" Ver " " "") by done.
        by rewrite HV.
      + by right.
      + by destruct Ver.
    - replace (Ver +:+ " _P.pak") with ((Ver +:+ " ") +:+ String "_" "P.pak")
        by (by rewrite sapp_assoc).
      rewrite includes_barrier by done. by rewrite Hsep. }
  rewrite Heq. split_and!; [done| |].
  - unfold findMatchingMods. rewrite filter_cons_True; [done|].
    simpl. by rewrite decide_True.
  - unfold checkOutdatedMods. rewrite filter_cons_False; [done|].
    simpl. unfold JsObject.get. rewrite lookup_singleton_eq. by intros [].
Qed.

Lemma download_name_roundtrip_witness :
  let entry := mkEntry "foo" "Foo" "12" "https://example.org/foo.pak" in
  includes " - " (DisplayName entry) = false ∧
  endsWith " -" (DisplayName entry) = false ∧
  includes "V" (Version entry) = false ∧
  fileNameOf entry = "Foo - V12 _P.pak" ∧
  getInstalledMods [fileNameOf entry] = mkInstalled ["Foo"] {["Foo" := "12"]} ∧
  checkOutdatedMods [entry] (getInstalledMods [fileNameOf entry]) = [].
Proof.
  cbv zeta.
  pose proof (download_name_roundtrip
                (mkEntry "foo" "Foo" "12" "https://example.org/foo.pak")
                eq_refl eq_refl eq_refl ltac:(by vm_compute) eq_refl eq_refl
                eq_refl eq_refl eq_refl) as (H1 & _ & H3).
  split_and!;
    [reflexivity|reflexivity|reflexivity|reflexivity|exact H1|exact H3].
Defined.

End RoundTrip.

(** ** The event loop *)

Section EventLoop.
Variable modPath : string.

Lemma tasks_finished st : tasks (finished st) = tasks st.
Proof. reflexivity. Qed.

Lemma tasks_joinReact st s : tasks (joinReact st s) = tasks st.
Proof.
  unfold joinReact. destruct (join st); [|done..].
  destruct s; try done; by case_match.
Qed.

Lemma tasks_fireTimer st : tasks (fireTimer st) = tasks st.
Proof. unfold fireTimer. by repeat case_match. Qed.

(** A turn of the event loop touches at most the task that resumes, and
    resumes it whatever the other tasks and the join have become. *)
Lemma tasks_step st ev :
  tasks (step modPath st ev) =
    match exited st, ev with
    | None, TaskReady i =>
        match tasks st !! i with
        | Some t => <[i := (advance modPath t).1]> (tasks st)
        | None => tasks st
        end
    | _, _ => tasks st
    end.
Proof.
  unfold step. destruct (exited st); [done|].
  destruct ev as [i|]; [|apply tasks_fireTimer].
  destruct (tasks st !! i) as [t|] eqn:Hi; [|done].
  destruct (terminal (state t)) eqn:Ht.
  - symmetry. rewrite list_insert_id; [done|]. rewrite Hi. f_equal.
    unfold advance. by destruct (state t).
  - destruct (advance modPath t) as [t' fx] eqn:Ha.
    by rewrite tasks_joinReact.
Qed.

Lemma length_tasks_run st schedule :
  length (tasks (run modPath st schedule)) = length (tasks st).
Proof.
  revert st. induction schedule as [|ev schedule IH]; intros st; [done|].
  simpl. rewrite IH, tasks_step.
  repeat case_match; try done. by rewrite length_insert.
Qed.

(** A property of single tasks that [advance] preserves holds of every
    task throughout the run. *)
Lemma tasks_run_Forall (P : task → Prop) st schedule :
  (∀ t, P t → P (advance modPath t).1) →
  Forall P (tasks st) → Forall P (tasks (run modPath st schedule)).
Proof.
  intros Hadv. revert st.
  induction schedule as [|ev schedule IH]; intros st Hst; [done|].
  simpl. apply IH. rewrite tasks_step.
  repeat case_match; try done.
  apply Forall_insert; [done|]. apply Hadv.
  eapply Forall_lookup_1; eauto.
Qed.

Lemma net_advance t : net (advance modPath t).1 = net t.
Proof.
  unfold advance. destruct (state t); try done.
  - by destruct (downloadFile_afterProbe _ _ _).
  - by destruct (downloadFile_afterPipeline _ _ _).
Qed.

(** Nothing is left to run when no task was created and no timer is set. *)
Lemma run_idle fx schedule : run modPath (idle fx) schedule = idle fx.
Proof.
  induction schedule as [|ev schedule IH]; [done|].
  simpl. by destruct ev.
Qed.

End EventLoop.

(** ** Run controller: a failure of the startup join *)

Section StartupFailure.

(** Membership in a trace that is displayed. *)
Local Ltac in_trace :=
  repeat first [ apply list_elem_of_here | apply list_elem_of_further ].

(** C3 (as stated, refuted).  The registry fetch fails with HTTP 500 while
    the directory is read: the error is caught and logged, [process.exit]
    is never called, and the process ends with status [0]. *)
Lemma startup_failure_counterexample :
  let st := run "C:\DRG\FSD\Content\Paks"
              (checkMods "C:\DRG\FSD\Content\Paks" id
                 (λ _, mkNet (Fulfilled None) (Fulfilled ()))
                 (Rejected "HTTPError: Response code 500")
                 (Fulfilled ["Foo - V1_P.pak"]) false)
              [TimerFires; TaskReady 0; TimerFires] in
  trace st = [StartBarStart 5;
              StartBarIncrement; HttpGetJson modRegistry;
              StartBarIncrement; ReadDir "C:\DRG\FSD\Content\Paks";
              StartBarStop;
              ConsoleError "Failed to get data" "HTTPError: Response code 500";
              StartBarIncrement] ∧
  exited st = None ∧ exitStatus st = 0%Z.
Proof. cbv zeta. split_and!; by vm_compute. Qed.

(** C3 (amended).  When the registry fetch or the directory read fails, the
    run stops before reconciliation: no download task is created and no
    download effect is performed, whatever happens afterwards; [finished]
    is not called; the progress bar is stopped and the error that rejected
    the join is written to the error stream.  The script does not end the
    process itself and sets no exit code: the process ends with status
    [0]. *)
Theorem startup_failure_aborts modPath localeSort nets registry files
    dirFirst schedule :
  (∃ e, registry = Rejected e) ∨ (∃ e, files = Rejected e) →
  let st := run modPath
              (checkMods modPath localeSort nets registry files dirFirst)
              schedule in
  tasks st = []
  ∧ forallb (λ fx, negb (isDownloadEffect fx)) (trace st) = true
  ∧ finishedCalls st = 0
  ∧ StartBarStop ∈ trace st
  ∧ (∃ err, (registry = Rejected err ∨ files = Rejected err)
            ∧ ConsoleError "Failed to get data" err ∈ trace st)
  ∧ exited st = None
  ∧ exitStatus st = 0%Z.
Proof.
  unfold checkMods.
  destruct registry as [remoteRegistry|e1], files as [listing|e2];
    intros Hfail; cbv zeta.
  - exfalso. by destruct Hfail as [[e He]|[e He]].
  - destruct dirFirst; rewrite run_idle; unfold failedToGetData; simpl;
      (split_and!; [done|done|done|in_trace| |done|done]);
      exists e2; (split; [by right|in_trace]).
  - destruct dirFirst; rewrite run_idle; unfold failedToGetData; simpl;
      (split_and!; [done|done|done|in_trace| |done|done]);
      exists e1; (split; [by left|in_trace]).
  - destruct dirFirst; rewrite run_idle; unfold failedToGetData; simpl;
      (split_and!; [done|done|done|in_trace| |done|done]).
    + exists e2. split; [by right|in_trace].
    + exists e1. split; [by left|in_trace].
Qed.

Lemma startup_failure_aborts_witness :
  let st := run "Paks"
              (checkMods "Paks" id
                 (λ _, mkNet (Fulfilled None) (Fulfilled ()))
                 (Fulfilled [mkEntry "foo" "Foo" "2" "https://example.org/foo"])
                 (Rejected "ENOENT: no such file or directory") true)
              [TaskReady 0; TimerFires] in
  tasks st = [] ∧ finishedCalls st = 0 ∧ exited st = None.
Proof.
  cbv zeta.
  pose proof (startup_failure_aborts "Paks" id
                (λ _, mkNet (Fulfilled None) (Fulfilled ()))
                (Fulfilled [mkEntry "foo" "Foo" "2" "https://example.org/foo"])
                (Rejected "ENOENT: no such file or directory") true
                [TaskReady 0; TimerFires]
                (or_intror (ex_intro _ _ eq_refl)))
    as (H1 & _ & H3 & _ & _ & H6 & _).
  split_and!; [exact H1|exact H3|exact H6].
Defined.

End StartupFailure.

(** ** Download orchestrator *)

Section Downloads.

Lemma forallb_bool_decide {A} (P : A → Prop) `{!∀ x, Decision (P x)} l :
  forallb (λ x, bool_decide (P x)) l = true ↔ Forall P l.
Proof.
  induction l as [|x l IH]; simpl.
  - split; [constructor|done].
  - rewrite andb_true_iff, bool_decide_eq_true, IH.
    split; [intros []; by constructor|by inversion 1].
Qed.

Lemma terminal_Succeeded t : state t = Succeeded → terminal (state t) = true.
Proof. by intros ->. Qed.

Lemma terminal_Failed t e : state t = Failed e → terminal (state t) = true.
Proof. by intros ->. Qed.

(** The state that [downloadOutdatedMods] leaves for a non-empty list. *)
Lemma downloadOutdatedMods_nonempty mods fx :
  mods ≠ [] →
  downloadOutdatedMods mods (idle fx)
  = mkRun ((λ p, mkTask p.1 p.2 Probing) <$> mods) JoinPending None 0 None
          (fx ++ [TotalBarStart (length mods)]
              ++ mbind (λ p, downloadFile_start p.1) mods).
Proof. destruct mods as [|p mods]; [done|]. reflexivity. Qed.

Lemma joinConsistent_start mods fx :
  mods ≠ [] → joinConsistent (downloadOutdatedMods mods (idle fx)).
Proof.
  intros Hne. rewrite downloadOutdatedMods_nonempty by done.
  unfold joinConsistent. simpl. split_and!; try done.
  - apply Forall_fmap, Forall_true. by intros p e.
  - destruct mods as [|p mods]; [done|]. by inversion 1.
  - by left.
Qed.

Lemma joinConsistent_fireTimer st :
  exited st = None → joinConsistent st → joinConsistent (fireTimer st).
Proof.
  intros Hex Hinv. unfold fireTimer.
  destruct (pendingTimer st) as [[]|] eqn:Htimer; [| |done];
    destruct Hinv as (Hjoin & Hfin & Hexit).
  - (* StopAndFinish *)
    unfold joinConsistent, finished. simpl.
    destruct (join st) eqn:Hj.
    + destruct Hjoin as (_ & _ & _ & ?). congruence.
    + destruct Hjoin as (Hall & [[_ Hfc]|Hfc]).
      * rewrite Hfc. split_and!; auto.
      * destruct (Hfin Hfc); congruence.
    + destruct Hjoin as (_ & Hfc). destruct (Hfin Hfc); congruence.
  - (* LogAndExit *)
    assert (finishedCalls st = 1) as Hfc.
    { destruct (join st) eqn:Hj.
      - destruct Hjoin as (_ & _ & _ & ?). congruence.
      - destruct Hjoin as (_ & [[? _]|?]); [congruence|done].
      - by destruct Hjoin. }
    unfold joinConsistent. simpl.
    split_and!; [|by right|by right].
    destruct (join st); [|by split; [apply Hjoin|right]|done].
    destruct Hjoin as (_ & _ & ? & _). lia.
Qed.

Lemma joinConsistent_step modPath st ev :
  joinConsistent st → joinConsistent (step modPath st ev).
Proof.
  intros Hinv. unfold step.
  destruct (exited st) eqn:Hex; [done|].
  destruct ev as [i|]; [|by apply joinConsistent_fireTimer].
  destruct (tasks st !! i) as [t|] eqn:Hi; [|done].
  destruct (terminal (state t)) eqn:Hterm; [done|].
  destruct (advance modPath t) as [t' fx] eqn:Hadv.
  destruct Hinv as (Hjoin & Hfin & Hexit).
  unfold joinReact. simpl.
  destruct (join st) eqn:Hj.
  - (* pending: the join settles now or stays pending *)
    destruct Hjoin as (Hnofail & _ & Hfc & Htimer).
    assert ((∀ e, state t' ≠ Failed e) →
      joinConsistent
        (if forallb (λ t0, bool_decide (state t0 = Succeeded))
                    (<[i:=t']> (tasks st))
         then mkRun (<[i:=t']> (tasks st)) JoinFulfilled (Some StopAndFinish)
                    (finishedCalls st) (exited st) (trace st ++ fx)
         else mkRun (<[i:=t']> (tasks st)) JoinPending (pendingTimer st)
                    (finishedCalls st) (exited st) (trace st ++ fx))) as Hok.
    { intros Hs.
      destruct (forallb _ _) eqn:Hall; unfold joinConsistent; simpl.
      - apply forallb_bool_decide in Hall.
        rewrite Hfc, Hex. split_and!; auto; lia.
      - rewrite Hfc, Hex, Htimer. split_and!; auto; try lia.
        + by apply Forall_insert.
        + intros Hall'. apply (forallb_bool_decide _) in Hall'. congruence. }
    rewrite Hex in Hok.
    destruct (state t') as [|len| |e] eqn:Hst.
    + by apply Hok.
    + by apply Hok.
    + by apply Hok.
    + unfold joinConsistent, finished. simpl. rewrite Hfc.
      split_and!; auto.
      exists i, t'. split; [|done].
      apply list_lookup_insert_eq. by eapply lookup_lt_Some.
  - (* fulfilled: every task has succeeded, none can resume *)
    destruct Hjoin as (Hall & _).
    rewrite Forall_lookup in Hall.
    apply Hall, terminal_Succeeded in Hi. congruence.
  - (* rejected: the join stays as it is *)
    unfold joinConsistent. simpl.
    destruct Hjoin as ((j & tj & Hjl & Hjs) & Hfc).
    rewrite Hex in Hfin. split_and!; auto.
    exists j, tj. split; [|done].
    rewrite list_lookup_insert_ne; [done|].
    intros ->. rewrite Hi in Hjl. injection Hjl as ->.
    apply terminal_Failed in Hjs. congruence.
Qed.

Lemma joinConsistent_run modPath st schedule :
  joinConsistent st → joinConsistent (run modPath st schedule).
Proof.
  revert st. induction schedule as [|ev schedule IH]; intros st Hst; [done|].
  simpl. by apply IH, joinConsistent_step.
Qed.

End Downloads.

Section Orchestrator.

Lemma trace_finished st : trace st `prefix_of` trace (finished st).
Proof. apply prefix_app_r. done. Qed.

Lemma trace_joinReact st s : trace st `prefix_of` trace (joinReact st s).
Proof.
  unfold joinReact. destruct (join st); [|done..].
  destruct s; try (by case_match).
  etrans; [|apply trace_finished]. by apply prefix_app_r.
Qed.

Lemma trace_step modPath st ev : trace st `prefix_of` trace (step modPath st ev).
Proof.
  unfold step. destruct (exited st); [done|]. destruct ev as [i|].
  - destruct (tasks st !! i) as [t|]; [|done].
    destruct (terminal (state t)); [done|].
    destruct (advance modPath t) as [t' fx].
    etrans; [|apply trace_joinReact]. by apply prefix_app_r.
  - unfold fireTimer. destruct (pendingTimer st) as [[]|]; [| |done].
    + etrans; [|apply trace_finished]. by apply prefix_app_r.
    + by apply prefix_app_r.
Qed.

Lemma trace_run modPath st schedule :
  trace st `prefix_of` trace (run modPath st schedule).
Proof.
  revert st. induction schedule as [|ev schedule IH]; intros st; [done|].
  simpl. etrans; [apply trace_step|apply IH].
Qed.

End Orchestrator.

(** ** The metadata probe *)

Section Probe.

(** C2 (as stated, refuted).  The [HEAD] request of the only task fails,
    although the body could have been streamed: the task is rejected with
    the probe's error, no stream is opened and no file is created, and the
    join is rejected. *)
Lemma probe_failure_counterexample :
  let entry := mkEntry "foo" "Foo" "2" "https://example.org/foo" in
  let net := mkNet (Rejected "RequestError: ETIMEDOUT") (Fulfilled ()) in
  let st := run "Paks" (downloadOutdatedMods [(entry, net)] (idle []))
                [TaskReady 0; TaskReady 0; TimerFires] in
  downloadFile_afterProbe "Paks" entry (headResult net)
  = (Failed "RequestError: ETIMEDOUT", []) ∧
  state <$> tasks st = [Failed "RequestError: ETIMEDOUT"] ∧
  trace st = [TotalBarStart 1; HttpHead "https://example.org/foo";
              TotalBarStop;
              ConsoleError "Failed to download files" "RequestError: ETIMEDOUT";
              StartBarIncrement; StartBarStop;
              ConsoleLog "Finished updating Mods"; ProcessExit 0] ∧
  HttpStream "https://example.org/foo" ∉ trace st.
Proof.
  cbv zeta. split_and!; [by vm_compute..|].
  refine (proj1 (bool_decide_eq_false _) _). by vm_compute.
Qed.

(** C2 (amended).  For every download task, a failure of the metadata probe
    is fatal to that task: the task fails with the probe's error without
    performing any effect (no stream is opened, no file is created), and it
    never comes to stream or to succeed, whatever the schedule.  A probe
    that succeeds is followed by the download whether or not it gives a
    content length; without one the file bar is created with an undefined
    total. *)
Theorem probe_failure_fails_task modPath mods fx schedule i t e :
  tasks (run modPath (downloadOutdatedMods mods (idle fx)) schedule) !! i
  = Some t →
  headResult (net t) = Rejected e →
  (state t = Probing ∨ state t = Failed e)
  ∧ advance modPath (mkTask (item t) (net t) Probing)
    = (mkTask (item t) (net t) (Failed e), [])
  ∧ (∀ it nt len, headResult nt = Fulfilled len →
       advance modPath (mkTask it nt Probing)
       = (mkTask it nt (Streaming len),
          [FileBarCreate len; FileBarUpdateTotal len;
           HttpStream (DownloadUrl it);
           CreateWriteStream modPath (fileNameOf it)])).
Proof.
  intros Hi Hhead. split_and!.
  - set (P := λ t : task, ∀ e, headResult (net t) = Rejected e →
                state t = Probing ∨ state t = Failed e).
    assert (Forall P (tasks (run modPath
              (downloadOutdatedMods mods (idle fx)) schedule))) as Hall.
    { apply tasks_run_Forall.
      - intros t0 Ht e' He'. rewrite net_advance in He'.
        unfold advance. destruct (Ht e' He') as [Hs|Hs]; rewrite Hs; simpl.
        + rewrite He'. simpl. by right.
        + rewrite Hs. by right.
      - unfold downloadOutdatedMods. rewrite tasks_joinReact. simpl.
        apply Forall_fmap, Forall_true. intros p e' _. by left. }
    rewrite Forall_lookup in Hall. by apply (Hall i t Hi).
  - unfold advance. simpl. by rewrite Hhead.
  - intros it nt len Hlen. unfold advance. simpl. by rewrite Hlen.
Qed.

Lemma probe_failure_fails_task_witness :
  let entry := mkEntry "foo" "Foo" "2" "https://example.org/foo" in
  let net := mkNet (Rejected "HTTPError: Response code 404") (Fulfilled ()) in
  let t := mkTask entry net (Failed "HTTPError: Response code 404") in
  tasks (run "Paks" (downloadOutdatedMods [(entry, net)] (idle []))
             [TaskReady 0; TaskReady 0]) !! 0%nat = Some t ∧
  headResult (net) = Rejected "HTTPError: Response code 404" ∧
  advance "Paks" (mkTask entry net Probing) = (t, []).
Proof.
  cbv zeta.
  pose proof (probe_failure_fails_task "Paks"
                [(mkEntry "foo" "Foo" "2" "https://example.org/foo",
                  mkNet (Rejected "HTTPError: Response code 404") (Fulfilled ()))]
                [] [TaskReady 0; TaskReady 0] 0 _ _ eq_refl eq_refl)
    as (_ & Hadv & _).
  split_and!; [reflexivity|reflexivity|exact Hadv].
Defined.

End Probe.

(** * Further properties of the script *)

(** ** More facts about the string primitives *)

Module JsStringLaws.
Import JsString JsStringFacts.

Lemma trim_end_idemp s : trim_end (trim_end s) = trim_end s.
Proof.
  induction s as [|c s IH]; [done|]. simpl.
  destruct (trim_end s) as [|d t] eqn:E.
  - destruct (is_ws c) eqn:Hc; [done|]. simpl. by rewrite Hc.
  - simpl in *. by rewrite IH.
Qed.

Lemma trim_end_head c s :
  is_ws c = false → ∃ t, trim_end (String c s) = String c t.
Proof.
  intros Hc. simpl. destruct (trim_end s); [|eauto]. rewrite Hc. eauto.
Qed.

Lemma trim_start_head s :
  trim_start s = "" ∨ ∃ c t, trim_start s = String c t ∧ is_ws c = false.
Proof.
  induction s as [|c s IH]; [by left|]. simpl.
  destruct (is_ws c) eqn:Hc; [done|]. right. eauto.
Qed.

(** [trim] returns a string that [trim] leaves alone. *)
Lemma trim_idemp s : trim (trim s) = trim s.
Proof.
  unfold trim. destruct (trim_start_head s) as [->|(c & t & -> & Hc)]; [done|].
  destruct (trim_end_head c t Hc) as [u Hu]. rewrite Hu.
  simpl trim_start. rewrite Hc, <-Hu. apply trim_end_idemp.
Qed.

(** A one-unit pattern occurs in a concatenation exactly when it occurs in
    one of the two sides. *)
Lemma includes_char_app d a b :
  includes (String d "") (a +:+ b)
  = includes (String d "") a || includes (String d "") b.
Proof.
  destruct b as [|c w].
  - rewrite sapp_empty_r. by rewrite orb_false_r.
  - by apply includes_barrier.
Qed.

(** What stands before the first occurrence holds no occurrence. *)
Lemma cut_before p s a b :
  cut p s = Some (a, b) → p ≠ "" → includes p a = false.
Proof.
  intros Hcut Hp. revert a b Hcut.
  induction s as [|c s IH]; intros a b Hcut.
  - simpl in Hcut. destruct (strip_prefix p "") eqn:E; simplify_eq/=.
    by apply includes_empty.
  - rewrite cut_cons in Hcut.
    destruct (strip_prefix p (String c s)) eqn:E.
    + simplify_eq/=. by apply includes_empty.
    + destruct (cut p s) as [[a' b']|] eqn:E'; simplify_eq/=.
      rewrite includes_cons, (IH _ _ eq_refl), orb_false_r.
      apply bool_decide_eq_false. intros [r Hr].
      apply cut_Some in E'. subst s.
      rewrite <-sapp_cons in E.
      by rewrite (strip_prefix_app_l _ _ _ _ Hr) in E.
Qed.

Lemma split_fuel_concat sep n s :
  sep ≠ "" → String.length s ≤ n →
  String.concat sep (split_fuel n sep s) = s
  ∧ Forall (λ part, includes sep part = false) (split_fuel n sep s).
Proof.
  intros Hsep. revert s. induction n as [|n IH]; intros s Hn.
  - destruct s; [|simpl in Hn; lia]. simpl. split; [done|].
    constructor; [by apply includes_empty|done].
  - simpl. destruct (cut sep s) as [[a b]|] eqn:E.
    + pose proof (cut_length _ _ _ _ E) as Hlen.
      assert (0 < String.length sep) by (destruct sep; [done|simpl; lia]).
      destruct (IH b ltac:(lia)) as [Hc Hf]. split.
      * change (String.concat sep (a :: split_fuel n sep b))
          with (match split_fuel n sep b with
                | [] => a
                | _ :: _ => a +:+ sep +:+ String.concat sep (split_fuel n sep b)
                end).
        destruct (split_fuel n sep b) eqn:Es.
        { destruct n; simpl in Es; [done|]. by destruct (cut sep b) as [[??]|]. }
        rewrite Hc. symmetry. by apply cut_Some.
      * constructor; [by eapply cut_before|done].
    + split; [done|]. constructor; [|done].
      unfold includes. by rewrite E.
Qed.

End JsStringLaws.

(** ** The installed mods as a function of the directory *)

Section InstalledMods.
Import JsString JsStringFacts JsStringLaws.

Lemma reducer_no_separator mods item :
  includes " - " item = false → reducer mods item = mods.
Proof.
  intros H. by rewrite reducer_cut, (includes_false_cut _ _ H).
Qed.

Lemma nameOf_includes item : is_Some (nameOf item) ↔ includes " - " item = true.
Proof.
  rewrite nameOf_cut. unfold includes.
  destruct (cut " - " item) as [[??]|]; simpl; split; eauto; try done.
Qed.

Lemma foldl_reducer_filter mods l :
  foldl reducer mods (filter (λ f, includes " - " f = true) l)
  = foldl reducer mods l.
Proof.
  revert mods. induction l as [|f l IH]; intros mods; [done|].
  destruct (includes " - " f) eqn:E.
  - rewrite filter_cons_True by done. simpl. apply IH.
  - rewrite filter_cons_False by (by rewrite E). simpl.
    by rewrite reducer_no_separator.
Qed.

Lemma StronglySorted_filter {A} (R : relation A) (P : A → Prop)
    `{!∀ x, Decision (P x)} l :
  StronglySorted R l → StronglySorted R (filter P l).
Proof.
  induction 1 as [|x l Hl IH Hx]; [constructor|].
  destruct (decide (P x)).
  - rewrite filter_cons_True by done. constructor; [done|].
    apply Forall_forall. intros y [_ Hy]%list_elem_of_filter.
    rewrite Forall_forall in Hx. auto.
  - by rewrite filter_cons_False.
Qed.

(** The sorted listing does not depend on the order in which [readdir]
    gives the names. *)
Lemma sortFiles_Permutation l l' : l ≡ₚ l' → sortFiles l = sortFiles l'.
Proof.
  intros Hperm. apply (StronglySorted_unique String.le).
  - apply StronglySorted_merge_sort; apply _.
  - apply StronglySorted_merge_sort; apply _.
  - unfold sortFiles. by rewrite !merge_sort_Permutation.
Qed.

Lemma sortFiles_filter (P : string → Prop) `{!∀ x, Decision (P x)} l :
  sortFiles (filter P l) = filter P (sortFiles l).
Proof.
  apply (StronglySorted_unique String.le).
  - apply StronglySorted_merge_sort; apply _.
  - apply StronglySorted_filter, StronglySorted_merge_sort; apply _.
  - unfold sortFiles. by rewrite !merge_sort_Permutation.
Qed.

Lemma elem_of_sortFiles f l : f ∈ sortFiles l ↔ f ∈ l.
Proof. unfold sortFiles. by rewrite merge_sort_Permutation. Qed.

(** X1.  File names without the separator [" - "] leave no trace in the
    result: the installed mods are those of the listing restricted to the
    names that hold a separator, and a listing without any such name gives
    the empty record. *)
Theorem files_without_separator_ignored files :
  getInstalledMods files
  = getInstalledMods (filter (λ f, includes " - " f = true) files)
  ∧ getInstalledMods (filter (λ f, includes " - " f = false) files) = noMods.
Proof.
  unfold getInstalledMods. split.
  - by rewrite sortFiles_filter, foldl_reducer_filter.
  - rewrite <-foldl_reducer_filter, <-sortFiles_filter, list_filter_filter.
    rewrite (proj2 (filter_eq_nil _ _)); [done|].
    apply Forall_forall. intros f _ [H1 H2]. congruence.
Qed.

(** X2.  The installed mods depend on the set of file names only, not on
    the order in which the directory lists them. *)
Theorem listing_order_irrelevant files files' :
  files ≡ₚ files' → getInstalledMods files = getInstalledMods files'.
Proof.
  intros H. unfold getInstalledMods. by rewrite (sortFiles_Permutation _ _ H).
Qed.

Lemma listing_order_irrelevant_witness :
  ["b - V2_P.pak"; "a - V1_P.pak"] ≡ₚ ["a - V1_P.pak"; "b - V2_P.pak"] ∧
  getInstalledMods ["b - V2_P.pak"; "a - V1_P.pak"]
  = getInstalledMods ["a - V1_P.pak"; "b - V2_P.pak"].
Proof.
  assert (["b - V2_P.pak"; "a - V1_P.pak"] ≡ₚ ["a - V1_P.pak"; "b - V2_P.pak"])
    as H by apply Permutation_swap.
  split; [exact H|]. exact (listing_order_irrelevant _ _ H).
Defined.

Lemma foldl_reducer_trimmed l mods :
  Forall (λ n, trim n = n) (names mods) →
  map_Forall (λ _ v, trim v = v) (versions mods) →
  Forall (λ n, trim n = n) (names (foldl reducer mods l))
  ∧ map_Forall (λ _ v, trim v = v) (versions (foldl reducer mods l)).
Proof.
  revert mods. induction l as [|f l IH]; intros mods Hn Hv; [done|].
  simpl. apply IH; rewrite reducer_cut;
    destruct (cut " - " f) as [[name rest]|]; simpl; try done.
  - apply Forall_app. split; [done|]. constructor; [apply trim_idemp|done].
  - unfold JsObject.set. case_decide; [done|].
    apply map_Forall_insert_2; [apply trim_idemp|done].
Qed.

(** X3.  Whatever the directory holds, every name on the names list and
    every version in the versions record is free of surrounding white
    space. *)
Theorem stored_strings_trimmed files :
  Forall (λ n, trim n = n) (names (getInstalledMods files))
  ∧ map_Forall (λ _ v, trim v = v) (versions (getInstalledMods files)).
Proof.
  apply foldl_reducer_trimmed; [constructor|apply map_Forall_empty].
Qed.

Lemma foldl_reducer_is_Some l mods k :
  is_Some (versions (foldl reducer mods l) !! k)
  ↔ is_Some (versions mods !! k)
    ∨ (k ≠ JsObject.proto_key ∧ ∃ f, f ∈ l ∧ nameOf f = Some k).
Proof.
  revert mods. induction l as [|f l IH]; intros mods.
  - simpl. split; [by left|]. intros [?|(_ & f & []%elem_of_nil & _)]; done.
  - simpl. rewrite IH. rewrite reducer_cut.
    pose proof (nameOf_cut f) as Hn.
    destruct (cut " - " f) as [[name rest]|]; simpl in *.
    + unfold JsObject.set. case_decide as Hk.
      * split; [intros [?|(? & g & ? & ?)]; [by left|right]|].
        { split; [done|]. exists g. split; [by right|done]. }
        intros [?|(Hne & g & [->|?]%elem_of_cons & Hg)]; [by left| |].
        { congruence. }
        right. eauto.
      * destruct (decide (name = k)) as [->|Hne].
        { rewrite lookup_insert_eq. split; [|by left; eauto].
          intros _. right. split; [done|]. exists f. split; [by left|done]. }
        rewrite lookup_insert_ne by done.
        split; [intros [?|(? & g & ? & ?)]; [by left|right]|].
        { split; [done|]. exists g. split; [by right|done]. }
        intros [?|(Hk' & g & [->|?]%elem_of_cons & Hg)]; [by left| |].
        { congruence. }
        right. eauto.
    + split; [intros [?|(? & g & ? & ?)]; [by left|right]|].
      { split; [done|]. exists g. split; [by right|done]. }
      intros [?|(Hk' & g & [->|?]%elem_of_cons & Hg)]; [by left| |].
      { congruence. }
      right. eauto.
Qed.

(** X4.  The versions record has an entry for [k] exactly when some file of
    the directory is recorded under [k] (what stands before its first
    separator) and [k] is not [__proto__]; the trimmed key is then on the
    names list. *)
Theorem versions_keys files k :
  (is_Some (JsObject.get (versions (getInstalledMods files)) k)
   ↔ k ≠ JsObject.proto_key ∧ ∃ f, f ∈ files ∧ nameOf f = Some k)
  ∧ (is_Some (JsObject.get (versions (getInstalledMods files)) k) →
     trim k ∈ names (getInstalledMods files)).
Proof.
  assert (is_Some (JsObject.get (versions (getInstalledMods files)) k)
          ↔ k ≠ JsObject.proto_key ∧ ∃ f, f ∈ files ∧ nameOf f = Some k) as H.
  { unfold getInstalledMods, JsObject.get. rewrite foldl_reducer_is_Some.
    simpl. rewrite lookup_empty. split.
    - intros [[? [=]]|(? & f & Hf & ?)]. split; [done|].
      exists f. by rewrite <-elem_of_sortFiles.
    - intros (? & f & Hf & ?). right. split; [done|].
      exists f. by rewrite elem_of_sortFiles. }
  split; [done|]. intros (_ & f & Hf & Hn)%H.
  unfold getInstalledMods. rewrite foldl_reducer_names. simpl.
  apply list_elem_of_fmap. exists k. split; [done|].
  apply list_elem_of_omap. exists f. by rewrite elem_of_sortFiles.
Qed.

(** X5.  When every recorded file has a name that is free of surrounding
    white space and is not [__proto__], every name on the names list has an
    entry in the versions record. *)
Theorem listed_names_have_versions files :
  Forall (λ f, ∀ n, nameOf f = Some n → trim n = n ∧ n ≠ JsObject.proto_key)
         files →
  Forall (λ n, is_Some (JsObject.get (versions (getInstalledMods files)) n))
         (names (getInstalledMods files)).
Proof.
  intros Hfiles. apply Forall_forall. intros n Hn.
  unfold getInstalledMods in Hn. rewrite foldl_reducer_names in Hn.
  simpl in Hn. apply list_elem_of_fmap in Hn as (n0 & -> & Hn0).
  apply list_elem_of_omap in Hn0 as (f & Hf & Hfn).
  rewrite elem_of_sortFiles in Hf.
  rewrite Forall_forall in Hfiles. destruct (Hfiles f Hf n0 Hfn) as [-> Hp].
  unfold getInstalledMods, JsObject.get. rewrite foldl_reducer_is_Some.
  right. split; [done|]. exists f. by rewrite elem_of_sortFiles.
Qed.

Lemma listed_names_have_versions_witness :
  let files := ["Foo - V2_P.pak"; "readme.txt"; "Bar - V1_P.pak"] in
  names (getInstalledMods files) = ["Bar"; "Foo"] ∧
  Forall (λ n, is_Some (JsObject.get (versions (getInstalledMods files)) n))
         (names (getInstalledMods files)).
Proof.
  cbv zeta. split; [by vm_compute|].
  apply listed_names_have_versions.
  constructor; [|constructor; [|constructor; [|constructor]]];
    intros n Hn; vm_compute in Hn; simplify_eq; by vm_compute.
Defined.

End InstalledMods.

(** ** Reading a file name *)

Section FileNames.
Import JsString JsStringFacts JsStringLaws.

(** X6.  The parts into which a file name is split, joined again by the
    separator, give back the file name; no part holds a separator; and there
    is a single part exactly when the file name holds no separator. *)
Theorem split_file_name_parts item :
  String.concat " - " (split " - " item) = item
  ∧ Forall (λ part, includes " - " part = false) (split " - " item)
  ∧ (length (split " - " item) = 1 ↔ includes " - " item = false).
Proof.
  destruct (split_fuel_concat " - " (String.length item) item) as [H1 H2];
    [done|done|].
  split_and!; [done|done|].
  rewrite split_sep_cut. unfold includes.
  destruct (cut " - " item) as [[name rest]|]; [|done].
  simpl. split; [|done]. intros [= H]. rewrite split_sep_cut in H.
  by destruct (cut " - " rest) as [[??]|].
Qed.

Lemma or_else_decide v d :
  or_else (Some v) d = if decide (v = "") then d else v.
Proof. by destruct v. Qed.

(** X7.  The version is read from part 1 once its first ["_P.pak"] is
    removed: it is what stands between the first ["V"] and the next one (or
    the end), and the default ["1"] when there is no ["V"] or nothing stands
    there.  So it is never empty, and it is ["1"] unless part 1 holds a
    ["V"]. *)
Theorem versionOf_segment part1 :
  versionOf part1 =
    match cut "V" (replace "_P.pak" "" part1) with
    | None => "1"
    | Some (_, after) =>
        let segment := match cut "V" after with
                       | None => after
                       | Some (segment, _) => segment
                       end in
        if decide (segment = "") then "1" else segment
    end
  ∧ versionOf part1 ≠ ""
  ∧ (versionOf part1 = "1" ∨ includes "V" part1 = true).
Proof.
  assert (versionOf part1 =
    match cut "V" (replace "_P.pak" "" part1) with
    | None => "1"
    | Some (_, after) =>
        let segment := match cut "V" after with
                       | None => after
                       | Some (segment, _) => segment
                       end in
        if decide (segment = "") then "1" else segment
    end) as Heq.
  { unfold versionOf.
    destruct (cut "V" (replace "_P.pak" "" part1)) as [[before after]|] eqn:E.
    - rewrite (split_cut_Some "V" _ _ _ ltac:(done) E).
      destruct (cut "V" after) as [[segment more]|] eqn:E'.
      + rewrite (split_cut_Some "V" _ _ _ ltac:(done) E'). simpl.
        apply or_else_decide.
      + rewrite (split_cut_None _ _ E'). simpl. apply or_else_decide.
    - by rewrite (split_cut_None _ _ E). }
  split_and!; [done| |].
  - rewrite Heq. destruct (cut "V" _) as [[before after]|]; [|done].
    simpl. by case_decide.
  - rewrite Heq.
    destruct (cut "V" (replace "_P.pak" "" part1)) as [[before after]|] eqn:E;
      [|by left].
    right. destruct (includes "V" part1) eqn:HV; [done|]. exfalso.
    assert (includes "V" (replace "_P.pak" "" part1) = false) as Hr.
    { unfold replace.
      destruct (cut "_P.pak" part1) as [[a b]|] eqn:Ep; [|done].
      apply cut_Some in Ep. subst part1.
      rewrite !includes_char_app in HV.
      apply orb_false_iff in HV as [Ha [_ Hb]%orb_false_iff].
      rewrite sapp_empty_l, includes_char_app. by rewrite Ha, Hb. }
    unfold includes in Hr. by rewrite E in Hr.
Qed.

Lemma sapp_inv_tail s1 s2 t : s1 +:+ t = s2 +:+ t → s1 = s2.
Proof.
  revert s2. induction s1 as [|c s1 IH]; intros [|d s2] H.
  - done.
  - apply (f_equal String.length) in H.
    rewrite sapp_empty_l, sapp_cons in H. simpl in H.
    rewrite slength_app in H. lia.
  - apply (f_equal String.length) in H.
    rewrite sapp_empty_l, sapp_cons in H. simpl in H.
    rewrite slength_app in H. lia.
  - rewrite !sapp_cons in H. injection H as -> H. f_equal. by apply IH.
Qed.

Lemma cut_fileNameOf entry :
  includes " - " (DisplayName entry) = false →
  endsWith " -" (DisplayName entry) = false →
  cut " - " (fileNameOf entry)
  = Some (DisplayName entry, "V" +:+ Version entry +:+ " _P.pak").
Proof.
  intros H1 H2. destruct (includes_sep_snoc _ H1 H2) as [H _].
  unfold fileNameOf.
  change (DisplayName entry +:+ " - V" +:+ Version entry +:+ " _P.pak")
    with (DisplayName entry +:+ " - " +:+ "V" +:+ Version entry +:+ " _P.pak").
  by apply (cut_first " - " " -" " "%char).
Qed.

(** X11.  Two registry entries whose display names hold no [" - "] and do
    not end in [" -"] are downloaded to the same file name only if they have
    the same display name and the same version. *)
Theorem fileNameOf_injective e1 e2 :
  includes " - " (DisplayName e1) = false →
  endsWith " -" (DisplayName e1) = false →
  includes " - " (DisplayName e2) = false →
  endsWith " -" (DisplayName e2) = false →
  fileNameOf e1 = fileNameOf e2 →
  DisplayName e1 = DisplayName e2 ∧ Version e1 = Version e2.
Proof.
  intros H1 H1' H2 H2' Heq.
  pose proof (cut_fileNameOf e1 H1 H1') as C1.
  pose proof (cut_fileNameOf e2 H2 H2') as C2.
  rewrite Heq, C2 in C1. injection C1 as HD HV.
  split; [done|]. symmetry. by eapply sapp_inv_tail.
Qed.

Lemma fileNameOf_injective_witness :
  let e1 := mkEntry "foo" "Foo" "2" "https://example.org/a" in
  let e2 := mkEntry "foo-mirror" "Foo" "2" "https://example.org/b" in
  fileNameOf e1 = fileNameOf e2 ∧
  DisplayName e1 = DisplayName e2 ∧ Version e1 = Version e2.
Proof.
  cbv zeta. split; [reflexivity|].
  exact (fileNameOf_injective
           (mkEntry "foo" "Foo" "2" "https://example.org/a")
           (mkEntry "foo-mirror" "Foo" "2" "https://example.org/b")
           eq_refl eq_refl eq_refl eq_refl eq_refl).
Defined.

(** X10.  Nothing removes a superseded file.  For a registry entry whose
    display name is free of surrounding white space: if, among the files
    recorded under that display name, the one that sorts last carries
    another version than the registry, the entry is matched and reported
    outdated, whatever other files (the freshly downloaded one included) the
    directory holds. *)
Theorem stale_file_keeps_mod_outdated entry old rest files :
  cut " - " old = Some (DisplayName entry, rest) →
  trim (DisplayName entry) = DisplayName entry →
  trim (versionOf (secondPart rest)) ≠ Version entry →
  old ∈ files →
  Forall (λ f, nameOf f = Some (DisplayName entry) → String.le f old) files →
  checkOutdatedMods (findMatchingMods [entry] (getInstalledMods files))
                    (getInstalledMods files) = [entry].
Proof.
  intros Hcut Htrim Hver Hin Hmax.
  assert (nameOf old = Some (DisplayName entry)) as Hname
    by (by rewrite nameOf_cut, Hcut).
  assert (DisplayName entry ∈ names (getInstalledMods files)) as Hin'.
  { unfold getInstalledMods. rewrite foldl_reducer_names. simpl.
    apply list_elem_of_fmap. exists (DisplayName entry). split; [done|].
    apply list_elem_of_omap. exists old. by rewrite elem_of_sortFiles. }
  apply elem_of_sortFiles, list_elem_of_split_r in Hin
    as (pre & post & Hsort & Hpost).
  assert (Forall (λ f, nameOf f ≠ Some (DisplayName entry)) post) as Hother.
  { pose proof (StronglySorted_merge_sort String.le files) as Hs.
    fold (sortFiles files) in Hs. rewrite Hsort in Hs.
    apply StronglySorted_app_1_r in Hs. inversion Hs as [|? ? _ Hle]; subst.
    apply Forall_forall. intros f Hf Hn. apply Hpost.
    rewrite Forall_forall in Hle, Hmax.
    assert (f ∈ files) as Hff.
    { apply elem_of_sortFiles. rewrite Hsort.
      apply elem_of_app. right. by right. }
    assert (f = old) as -> by (apply (anti_symm String.le); auto).
    done. }
  assert (JsObject.get (versions (getInstalledMods files)) (DisplayName entry)
          ≠ Some (Version entry)) as Hget.
  { unfold getInstalledMods. rewrite Hsort, foldl_app. simpl.
    rewrite foldl_reducer_get_other by done.
    rewrite (reducer_get_same _ noMods _ _ Hname)
      by (by rewrite foldl_reducer_lookup_proto).
    rewrite reducer_cut, Hcut. unfold JsObject.get, JsObject.set. simpl.
    case_decide; [by rewrite lookup_empty|].
    rewrite lookup_insert_eq. congruence. }
  unfold findMatchingMods.
  rewrite filter_cons_True by (by apply indexOf_elem_of).
  rewrite filter_nil. unfold checkOutdatedMods.
  by rewrite filter_cons_True.
Qed.

Lemma stale_file_keeps_mod_outdated_witness :
  let entry := mkEntry "foo" "Foo" "10" "https://example.org/foo" in
  let files := [fileNameOf entry; "Foo - V9 _P.pak"] in
  fileNameOf entry = "Foo - V10 _P.pak" ∧
  sortFiles files = ["Foo - V10 _P.pak"; "Foo - V9 _P.pak"] ∧
  checkOutdatedMods (findMatchingMods [entry] (getInstalledMods files))
                    (getInstalledMods files) = [entry].
Proof.
  cbv zeta. split; [reflexivity|]. split; [by vm_compute|].
  apply (stale_file_keeps_mod_outdated
           (mkEntry "foo" "Foo" "10" "https://example.org/foo")
           "Foo - V9 _P.pak" "V9 _P.pak").
  - reflexivity.
  - reflexivity.
  - by vm_compute.
  - right. left.
  - constructor; [|constructor; [|constructor]]; intros _; by vm_compute.
Defined.

End FileNames.

(** ** The reconciler as a pipeline *)

Section Pipeline.

(** X8.  Matching and then checking versions is a single order-preserving
    filter of the registry: an entry is kept exactly when its display name is
    installed and its version is not the recorded one.  The two steps can be
    swapped, and each of them changes nothing when applied twice. *)
Theorem reconcile_is_one_filter registry installed :
  checkOutdatedMods (findMatchingMods registry installed) installed
  = filter (λ e, DisplayName e ∈ names installed
                 ∧ JsObject.get (versions installed) (DisplayName e)
                   ≠ Some (Version e)) registry
  ∧ checkOutdatedMods (findMatchingMods registry installed) installed
    = findMatchingMods (checkOutdatedMods registry installed) installed
  ∧ findMatchingMods (findMatchingMods registry installed) installed
    = findMatchingMods registry installed
  ∧ checkOutdatedMods (checkOutdatedMods registry installed) installed
    = checkOutdatedMods registry installed.
Proof.
  unfold checkOutdatedMods, findMatchingMods.
  rewrite !list_filter_filter. split_and!.
  - apply list_filter_iff. intros e. rewrite indexOf_elem_of. tauto.
  - apply list_filter_iff. intros e. tauto.
  - apply list_filter_iff. intros e. tauto.
  - apply list_filter_iff. intros e. tauto.
Qed.

(** X9.  Matching looks at the names list as a set: the number of times a
    name is listed and the versions record play no part.  With no installed
    name nothing matches. *)
Theorem matching_depends_on_name_set registry names1 versions1 names2 versions2 :
  list_to_set names1 =@{gset string} list_to_set names2 →
  findMatchingMods registry (mkInstalled names1 versions1)
  = findMatchingMods registry (mkInstalled names2 versions2)
  ∧ findMatchingMods registry (mkInstalled [] versions1) = [].
Proof.
  intros Hset. split.
  - unfold findMatchingMods. apply list_filter_iff. intros e. simpl.
    rewrite !indexOf_elem_of.
    by rewrite <-!(elem_of_list_to_set (C:=gset string)), Hset.
  - unfold findMatchingMods. apply filter_eq_nil, Forall_forall.
    intros e _. simpl. lia.
Qed.

Lemma matching_depends_on_name_set_witness :
  let registry := [mkEntry "foo" "Foo" "2" "https://example.org/foo";
                   mkEntry "bar" "Bar" "1" "https://example.org/bar"] in
  list_to_set ["Foo"; "Foo"] =@{gset string} list_to_set ["Foo"] ∧
  findMatchingMods registry (mkInstalled ["Foo"; "Foo"] {["Foo" := "1"]})
  = findMatchingMods registry (mkInstalled ["Foo"] ∅).
Proof.
  cbv zeta.
  assert (list_to_set ["Foo"; "Foo"] =@{gset string} list_to_set ["Foo"])
    as H by (by vm_compute).
  split; [exact H|].
  exact (proj1 (matching_depends_on_name_set _ _ _ _ _ H)).
Defined.

End Pipeline.

(** ** Tasks during a run *)

Section Tasks.
Variable modPath : string.

Lemma exited_joinReact st s : exited (joinReact st s) = exited st.
Proof.
  unfold joinReact. destruct (join st); [|done..].
  destruct s; try done; by case_match.
Qed.

Lemma exited_step_ready st i : exited (step modPath st (TaskReady i)) = exited st.
Proof.
  unfold step. destruct (exited st) eqn:E; [done|].
  destruct (tasks st !! i) as [t|]; [|done].
  destruct (terminal (state t)); [done|].
  destruct (advance modPath t) as [t' fx]. by rewrite exited_joinReact.
Qed.

(** After [process.exit] nothing happens any more. *)
Lemma run_exited st schedule :
  is_Some (exited st) → run modPath st schedule = st.
Proof.
  intros [c Hc]. induction schedule as [|ev schedule IH]; [done|].
  simpl. assert (step modPath st ev = st) as ->; [|done].
  unfold step. by rewrite Hc.
Qed.

Lemma exited_step_None st ev :
  exited (step modPath st ev) = None → exited st = None.
Proof.
  unfold step. destruct (exited st) eqn:E; [|done]. congruence.
Qed.

Lemma exited_run_None st schedule :
  exited (run modPath st schedule) = None → exited st = None.
Proof.
  revert st. induction schedule as [|ev schedule IH]; intros st H; [done|].
  simpl in H. by apply IH, exited_step_None in H.
Qed.

Lemma advance_terminal t :
  terminal (state t) = true → advance modPath t = (t, []).
Proof. unfold advance. by destruct (state t). Qed.

Lemma item_advance t : item (advance modPath t).1 = item t.
Proof.
  unfold advance. destruct (state t); try done.
  - by destruct (downloadFile_afterProbe _ _ _).
  - by destruct (downloadFile_afterPipeline _ _ _).
Qed.

(** X12.  No download is retried or revived: once a task has succeeded or
    failed, it stays as it is for the rest of the run, whatever resumes
    afterwards. *)
Theorem settled_task_stays st schedule i t :
  tasks st !! i = Some t → terminal (state t) = true →
  tasks (run modPath st schedule) !! i = Some t.
Proof.
  intros Hi Ht. revert st Hi.
  induction schedule as [|ev schedule IH]; intros st Hi; [done|].
  simpl. apply IH. rewrite tasks_step.
  destruct (exited st); [done|]. destruct ev as [j|]; [|done].
  destruct (tasks st !! j) as [tj|] eqn:Hj; [|done].
  destruct (decide (j = i)) as [->|Hne].
  - rewrite Hi in Hj. injection Hj as <-.
    rewrite advance_terminal by done. simpl.
    by rewrite list_insert_id.
  - by rewrite list_lookup_insert_ne.
Qed.

(** As long as the process has not exited, the state of a task is the one it
    reaches from its previous state by resuming as many times as the schedule
    resumes it. *)
Lemma task_progress st schedule i t :
  exited (run modPath st schedule) = None →
  tasks st !! i = Some t →
  tasks (run modPath st schedule) !! i
  = Some (Nat.iter (readyCount i schedule) (λ t, (advance modPath t).1) t).
Proof.
  revert st t. induction schedule as [|ev schedule IH]; intros st t Hex Hi;
    [done|].
  simpl in *. pose proof (exited_run_None _ _ Hex) as Hex1.
  pose proof (exited_step_None _ _ Hex1) as Hex0.
  unfold readyCount. destruct (decide (ev = TaskReady i)) as [->|Hne].
  - rewrite filter_cons_True by done. simpl length.
    rewrite Nat.iter_succ_r.
    apply IH; [done|]. rewrite tasks_step, Hex0, Hi.
    apply list_lookup_insert_eq. by eapply lookup_lt_Some.
  - rewrite filter_cons_False by done.
    apply IH; [done|]. rewrite tasks_step, Hex0.
    destruct ev as [j|]; [|done].
    destruct (tasks st !! j); [|done].
    rewrite list_lookup_insert_ne; [done|congruence].
Qed.

(** X17.  Tasks do not influence one another: two schedules that resume a
    task equally often, and after which the process has not exited, leave
    that task in the same state, whatever the other tasks, the timers and
    the join have done in between and in whatever order. *)
Theorem task_progress_is_independent st schedule1 schedule2 i :
  exited (run modPath st schedule1) = None →
  exited (run modPath st schedule2) = None →
  readyCount i schedule1 = readyCount i schedule2 →
  tasks (run modPath st schedule1) !! i = tasks (run modPath st schedule2) !! i.
Proof.
  intros H1 H2 Hcount. destruct (tasks st !! i) as [t|] eqn:Hi.
  - by rewrite (task_progress _ _ _ _ H1 Hi), (task_progress _ _ _ _ H2 Hi),
      Hcount.
  - apply lookup_ge_None in Hi.
    rewrite !(proj2 (lookup_ge_None _ _)); [done|..];
      by rewrite length_tasks_run.
Qed.

End Tasks.

Lemma settled_task_stays_witness :
  let entry := mkEntry "foo" "Foo" "2" "https://example.org/foo" in
  let net := mkNet (Fulfilled (Some 10)) (Rejected "ECONNRESET") in
  let st := run "Paks" (downloadOutdatedMods [(entry, net)] (idle []))
                [TaskReady 0; TaskReady 0] in
  tasks st !! 0%nat = Some (mkTask entry net (Failed "ECONNRESET")) ∧
  tasks (run "Paks" st [TaskReady 0; TimerFires; TaskReady 0]) !! 0%nat
  = Some (mkTask entry net (Failed "ECONNRESET")).
Proof.
  cbv zeta. split; [reflexivity|].
  apply settled_task_stays; reflexivity.
Defined.

Lemma task_progress_is_independent_witness :
  let a := mkEntry "a" "Alpha" "2" "https://example.org/a" in
  let b := mkEntry "b" "Beta" "3" "https://example.org/b" in
  let ok := mkNet (Fulfilled (Some 10)) (Fulfilled ()) in
  let bad := mkNet (Rejected "ETIMEDOUT") (Fulfilled ()) in
  let st := downloadOutdatedMods [(a, bad); (b, ok)] (idle []) in
  let schedule1 := [TaskReady 1; TaskReady 0; TaskReady 1] in
  let schedule2 := [TaskReady 1; TaskReady 1] in
  readyCount 1 schedule1 = readyCount 1 schedule2 ∧
  join (run "Paks" st schedule1) ≠ join (run "Paks" st schedule2) ∧
  tasks (run "Paks" st schedule1) !! 1%nat
  = tasks (run "Paks" st schedule2) !! 1%nat.
Proof.
  cbv zeta. split; [reflexivity|]. split; [by vm_compute|].
  exact (task_progress_is_independent "Paks"
           (downloadOutdatedMods
              [(mkEntry "a" "Alpha" "2" "https://example.org/a",
                mkNet (Rejected "ETIMEDOUT") (Fulfilled ()));
               (mkEntry "b" "Beta" "3" "https://example.org/b",
                mkNet (Fulfilled (Some 10)) (Fulfilled ()))] (idle []))
           [TaskReady 1; TaskReady 0; TaskReady 1] [TaskReady 1; TaskReady 1]
           1 eq_refl eq_refl eq_refl).
Defined.

(** ** What the total bar shows *)

Section TotalBar.
Variable modPath : string.

Lemma length_filter_insert {A} (P : A → Prop) `{!∀ x, Decision (P x)}
    (l : list A) i x y :
  l !! i = Some x →
  length (filter P (<[i:=y]> l)) + (if decide (P x) then 1 else 0)
  = length (filter P l) + (if decide (P y) then 1 else 0).
Proof.
  revert i. induction l as [|z l IH]; intros [|i] Hi; simplify_eq/=.
  - rewrite !filter_cons. repeat case_decide; simpl; lia.
  - rewrite !filter_cons. specialize (IH i Hi).
    destruct (decide (P z)); simpl; lia.
Qed.

Lemma length_filter_all {A} (P : A → Prop) `{!∀ x, Decision (P x)} (l : list A) :
  length (filter P l) = length l ↔ Forall P l.
Proof.
  rewrite <-filter_eq_self. split; [|by intros ->].
  induction l as [|x l IH]; [done|]. pose proof (length_filter P l).
  rewrite filter_cons. case_decide; simpl; [|lia].
  intros [= Hl]. f_equal. auto.
Qed.

Lemma updatedCount_app st fx :
  length (filter (λ e, e = TotalBarIncrement) (trace st ++ fx))
  = updatedCount st + length (filter (λ e, e = TotalBarIncrement) fx).
Proof. unfold updatedCount. by rewrite filter_app, length_app. Qed.

Lemma counts_finished st :
  updatedCount (finished st) = updatedCount st
  ∧ succeededCount (finished st) = succeededCount st.
Proof.
  split; [|done]. unfold finished, updatedCount at 1. simpl.
  rewrite updatedCount_app. simpl. lia.
Qed.

Lemma counts_joinReact st s :
  updatedCount (joinReact st s) = updatedCount st
  ∧ succeededCount (joinReact st s) = succeededCount st.
Proof.
  unfold joinReact. destruct (join st); [|done..].
  destruct s; try (by case_match).
  destruct (counts_finished
    (mkRun (tasks st) (JoinRejected err) (pendingTimer st) (finishedCalls st)
       (exited st)
       (trace st ++ [TotalBarStop; ConsoleError "Failed to download files" err])))
    as [-> ->].
  split; [|done]. unfold updatedCount at 1. simpl.
  rewrite updatedCount_app. simpl. lia.
Qed.

Lemma counts_fireTimer st :
  updatedCount (fireTimer st) = updatedCount st
  ∧ succeededCount (fireTimer st) = succeededCount st.
Proof.
  unfold fireTimer. destruct (pendingTimer st) as [[]|]; [| |done].
  - destruct (counts_finished
      (mkRun (tasks st) (join st) None (finishedCalls st) (exited st)
         (trace st ++ [TotalBarStop]))) as [-> ->].
    split; [|done]. unfold updatedCount at 1. simpl.
    rewrite updatedCount_app. simpl. lia.
  - split; [|done]. unfold updatedCount at 1. simpl.
    rewrite updatedCount_app. simpl. lia.
Qed.

(** A task that resumes adds one increment of the total bar exactly when it
    comes to succeed. *)
Lemma advance_increment t :
  terminal (state t) = false →
  length (filter (λ e, e = TotalBarIncrement) (advance modPath t).2)
  = if decide (state (advance modPath t).1 = Succeeded) then 1 else 0.
Proof.
  unfold advance. destruct (state t) as [|len| |e]; try done; intros _.
  - by destruct (headResult (net t)).
  - by destruct (pipelineResult (net t)).
Qed.

Lemma counts_step st ev :
  updatedCount (step modPath st ev) + succeededCount st
  = updatedCount st + succeededCount (step modPath st ev).
Proof.
  unfold step. destruct (exited st); [lia|]. destruct ev as [i|].
  - destruct (tasks st !! i) as [t|] eqn:Hi; [|lia].
    destruct (terminal (state t)) eqn:Ht; [lia|].
    pose proof (advance_increment t Ht) as Hinc.
    destruct (advance modPath t) as [t' fx]. simpl in Hinc.
    match goal with |- context [joinReact ?s ?x] =>
      destruct (counts_joinReact s x) as [-> ->] end.
    unfold updatedCount at 1, succeededCount at 2. simpl.
    rewrite updatedCount_app, Hinc.
    pose proof (length_filter_insert (λ t, state t = Succeeded)
                  (tasks st) i t t' Hi) as Hlen.
    rewrite (decide_False (P := state t = Succeeded)) in Hlen
      by (intros Hs; by rewrite Hs in Ht).
    unfold succeededCount. lia.
  - destruct (counts_fireTimer st) as [-> ->]. lia.
Qed.

Lemma counts_run st schedule :
  updatedCount (run modPath st schedule) + succeededCount st
  = updatedCount st + succeededCount (run modPath st schedule).
Proof.
  revert st. induction schedule as [|ev schedule IH]; intros st; [done|].
  simpl. pose proof (IH (step modPath st ev)). pose proof (counts_step st ev).
  lia.
Qed.

Lemma counts_start mods fx :
  updatedCount (downloadOutdatedMods mods (idle fx)) = updatedCount (idle fx)
  ∧ succeededCount (downloadOutdatedMods mods (idle fx)) = 0.
Proof.
  unfold downloadOutdatedMods.
  match goal with |- context [joinReact ?s ?x] =>
    destruct (counts_joinReact s x) as [-> ->] end.
  unfold updatedCount, succeededCount. simpl. split.
  - rewrite !filter_app, !length_app. simpl.
    rewrite filter_cons_False by done.
    assert (filter (λ e, e = TotalBarIncrement)
              (mods ≫= λ p, downloadFile_start p.1) = []) as ->; [|simpl; lia].
    apply filter_eq_nil, Forall_forall.
    intros e (p & Hp & _)%list_elem_of_bind.
    apply list_elem_of_singleton in Hp. by subst e.
  - assert (filter (λ t, state t = Succeeded)
              ((λ p, mkTask p.1 p.2 Probing) <$> mods) = []) as ->; [|done].
    apply filter_eq_nil, Forall_fmap, Forall_true. by intros p.
Qed.

(** X13.  The total bar counts the completed downloads and nothing else:
    throughout a run, the number of its increments since
    [downloadOutdatedMods] started is the number of tasks that have
    succeeded, and never exceeds the number of outdated mods. *)
Theorem total_bar_counts_successes mods fx schedule :
  let st := run modPath (downloadOutdatedMods mods (idle fx)) schedule in
  updatedCount st = updatedCount (idle fx) + succeededCount st
  ∧ succeededCount st ≤ length mods.
Proof.
  cbv zeta. destruct (counts_start mods fx) as [H1 H2].
  pose proof (counts_run (downloadOutdatedMods mods (idle fx)) schedule) as H.
  split; [lia|].
  unfold succeededCount. etrans; [apply length_filter|].
  rewrite length_tasks_run. unfold downloadOutdatedMods.
  rewrite tasks_joinReact. simpl. by rewrite length_fmap.
Qed.

(** X14.  For a non-empty list of outdated mods, the total bar reaches its
    total exactly when the join of the downloads is fulfilled. *)
Theorem total_bar_full_iff_join_fulfilled mods fx schedule :
  mods ≠ [] →
  let st := run modPath (downloadOutdatedMods mods (idle fx)) schedule in
  join st = JoinFulfilled
  ↔ updatedCount st = updatedCount (idle fx) + length mods.
Proof.
  intros Hne. cbv zeta.
  pose proof (joinConsistent_run modPath _ schedule
                (joinConsistent_start mods fx Hne)) as (Hjoin & _ & _).
  destruct (counts_start mods fx) as [H1 H2].
  pose proof (counts_run (downloadOutdatedMods mods (idle fx)) schedule) as H.
  set (st := run modPath (downloadOutdatedMods mods (idle fx)) schedule) in *.
  assert (length (tasks st) = length mods) as Hlen.
  { unfold st. rewrite length_tasks_run. unfold downloadOutdatedMods.
    rewrite tasks_joinReact. simpl. by rewrite length_fmap. }
  assert (updatedCount st = updatedCount (idle fx) + length mods
          ↔ Forall (λ t, state t = Succeeded) (tasks st)) as ->.
  { assert (updatedCount st = updatedCount (idle fx) + succeededCount st)
      as Hcount by lia.
    rewrite <-(length_filter_all (λ t, state t = Succeeded) (tasks st)).
    change (length (filter (λ t, state t = Succeeded) (tasks st)))
      with (succeededCount st).
    lia. }
  destruct (join st) eqn:Hj.
  - split; [done|]. intros Hall. by destruct Hjoin as (_ & Hnot & _).
  - split; [intros _; apply Hjoin|done].
  - split; [done|]. intros Hall.
    destruct Hjoin as [(i & t & Hi & Ht) _].
    rewrite Forall_lookup in Hall. specialize (Hall i t Hi). congruence.
Qed.

End TotalBar.

Lemma total_bar_full_iff_join_fulfilled_witness :
  let ok := mkNet (Fulfilled None) (Fulfilled ()) in
  let mods := [(mkEntry "a" "Alpha" "2" "https://example.org/a", ok);
               (mkEntry "b" "Beta" "3" "https://example.org/b", ok)] in
  let st := run "Paks" (downloadOutdatedMods mods (idle []))
                [TaskReady 1; TaskReady 0; TaskReady 0; TaskReady 1] in
  mods ≠ [] ∧ join st = JoinFulfilled ∧ updatedCount st = 2.
Proof.
  cbv zeta. split; [done|]. split; [reflexivity|].
  exact (proj1 (total_bar_full_iff_join_fulfilled "Paks"
           [(mkEntry "a" "Alpha" "2" "https://example.org/a",
             mkNet (Fulfilled None) (Fulfilled ()));
            (mkEntry "b" "Beta" "3" "https://example.org/b",
             mkNet (Fulfilled None) (Fulfilled ()))]
           [] [TaskReady 1; TaskReady 0; TaskReady 0; TaskReady 1]
           ltac:(done)) eq_refl).
Defined.

(** ** The run controller on success *)

Section Controller.
Variable modPath : string.

Lemma items_step st ev :
  item <$> tasks (step modPath st ev) = item <$> tasks st
  ∧ net <$> tasks (step modPath st ev) = net <$> tasks st.
Proof.
  rewrite tasks_step. destruct (exited st); [done|].
  destruct ev as [i|]; [|done].
  destruct (tasks st !! i) as [t|] eqn:Hi; [|done].
  rewrite !list_fmap_insert, item_advance, net_advance.
  split; apply list_insert_id; by rewrite list_lookup_fmap, Hi.
Qed.

Lemma items_run st schedule :
  item <$> tasks (run modPath st schedule) = item <$> tasks st
  ∧ net <$> tasks (run modPath st schedule) = net <$> tasks st.
Proof.
  revert st. induction schedule as [|ev schedule IH]; intros st; [done|].
  simpl. destruct (IH (step modPath st ev)) as [-> ->]. apply items_step.
Qed.

(** X15.  When both the registry and the directory are obtained, the
    download tasks are, for the whole run, exactly the outdated entries of
    the sorted registry, in that order, each with its own network answers:
    none is added, dropped or replaced. *)
Theorem download_tasks_are_outdated_entries localeSort nets registry files
    dirFirst schedule :
  let installed := getInstalledMods files in
  let outdated :=
    checkOutdatedMods (findMatchingMods (localeSort registry) installed)
                      installed in
  let st := run modPath
              (checkMods modPath localeSort nets
                 (Fulfilled registry) (Fulfilled files) dirFirst) schedule in
  item <$> tasks st = outdated ∧ net <$> tasks st = nets <$> outdated.
Proof.
  cbv zeta. destruct (items_run
    (checkMods modPath localeSort nets (Fulfilled registry) (Fulfilled files)
       dirFirst) schedule) as [-> ->].
  unfold checkMods.
  destruct (checkOutdatedMods _ _) as [|e l]; [done|].
  unfold downloadOutdatedMods. rewrite tasks_joinReact. simpl.
  rewrite <-!list_fmap_compose. simpl. split; f_equal;
    try done; by rewrite <-(list_fmap_id l) at 2.
Qed.

(** A state that only waits for the exit timer. *)
Lemma run_waiting_for_exit st schedule :
  tasks st = [] → pendingTimer st = Some LogAndExit → exited st = None →
  run modPath st schedule
  = if bool_decide (TimerFires ∈ schedule) then fireTimer st else st.
Proof.
  intros Ht Htimer Hex.
  induction schedule as [|ev schedule IH]; [done|].
  simpl. destruct ev as [i|].
  - assert (step modPath st (TaskReady i) = st) as ->.
    { unfold step. by rewrite Hex, Ht. }
    rewrite IH.
    rewrite (bool_decide_ext (TimerFires ∈ TaskReady i :: schedule)
               (TimerFires ∈ schedule)); [done|].
    rewrite elem_of_cons. split; [by intros [?|?]|by right].
  - rewrite bool_decide_eq_true_2 by apply list_elem_of_here.
    assert (step modPath st TimerFires = fireTimer st) as ->.
    { unfold step. by rewrite Hex. }
    apply run_exited. unfold fireTimer. rewrite Htimer. simpl. eauto.
Qed.

(** X16.  When no installed mod is outdated, nothing is downloaded:
    no task is created and no download effect occurs, [finished] is called
    once, and the process exits with status [0], after having written
    ["Finished updating Mods"], as soon as its timer fires. *)
Theorem up_to_date_run_downloads_nothing localeSort nets registry files
    dirFirst schedule :
  checkOutdatedMods
    (findMatchingMods (localeSort registry) (getInstalledMods files))
    (getInstalledMods files) = [] →
  let st := run modPath
              (checkMods modPath localeSort nets
                 (Fulfilled registry) (Fulfilled files) dirFirst) schedule in
  tasks st = []
  ∧ forallb (λ fx, negb (isDownloadEffect fx)) (trace st) = true
  ∧ finishedCalls st = 1
  ∧ exited st = (if bool_decide (TimerFires ∈ schedule) then Some 0%Z else None)
  ∧ (ConsoleLog "Finished updating Mods" ∈ trace st ↔ TimerFires ∈ schedule).
Proof.
  intros Hnone. cbv zeta. unfold checkMods. rewrite Hnone.
  rewrite run_waiting_for_exit by done.
  destruct (bool_decide (TimerFires ∈ schedule)) eqn:Hb.
  - apply bool_decide_eq_true in Hb. simpl.
    split_and!; [done|done|done|done|]. split; [done|]. intros _.
    unfold fireTimer. simpl.
    do 9 apply list_elem_of_further. apply list_elem_of_here.
  - apply bool_decide_eq_false in Hb. simpl.
    split_and!; [done|done|done|done|]. split; [|done].
    intros H. apply (bool_decide_pack _) in H. by vm_compute in H.
Qed.

End Controller.

Lemma up_to_date_run_downloads_nothing_witness :
  let registry := [mkEntry "foo" "Foo" "2" "https://example.org/foo";
                   mkEntry "bar" "Bar" "5" "https://example.org/bar"] in
  let files := ["Foo - V2_P.pak"; "FSD-WindowsNoEditor.pak"] in
  let nets := λ _, mkNet (Fulfilled None) (Fulfilled ()) in
  let st := run "Paks" (checkMods "Paks" id nets (Fulfilled registry)
                          (Fulfilled files) true) [TaskReady 0; TimerFires] in
  checkOutdatedMods (findMatchingMods (id registry) (getInstalledMods files))
                    (getInstalledMods files) = [] ∧
  tasks st = [] ∧ finishedCalls st = 1 ∧ exited st = Some 0%Z.
Proof.
  cbv zeta.
  pose proof (up_to_date_run_downloads_nothing "Paks" id
                (λ _, mkNet (Fulfilled None) (Fulfilled ()))
                [mkEntry "foo" "Foo" "2" "https://example.org/foo";
                 mkEntry "bar" "Bar" "5" "https://example.org/bar"]
                ["Foo - V2_P.pak"; "FSD-WindowsNoEditor.pak"] true
                [TaskReady 0; TimerFires] ltac:(by vm_compute))
    as (H1 & _ & H3 & H4 & _).
  split_and!; [by vm_compute|exact H1|exact H3|exact H4].
Defined.

(** ** A run in which every download succeeds *)

Section AllSucceed.
Variable modPath : string.

Lemma exited_run_ready st schedule :
  Forall (λ ev, ev ≠ TimerFires) schedule →
  exited (run modPath st schedule) = exited st.
Proof.
  intros H. revert st. induction H as [|ev schedule Hev _ IH]; intros st;
    [done|].
  simpl. rewrite IH. destruct ev; [apply exited_step_ready|done].
Qed.

(** Before any timer fires, [finished] has only been called if the join was
    rejected. *)
Lemma finished_only_on_rejection st schedule :
  Forall (λ ev, ev ≠ TimerFires) schedule →
  finishedCalls st = 0 ∨ (∃ e, join st = JoinRejected e) →
  finishedCalls (run modPath st schedule) = 0
  ∨ (∃ e, join (run modPath st schedule) = JoinRejected e).
Proof.
  intros H. revert st. induction H as [|ev schedule Hev _ IH]; intros st Hst;
    [done|].
  simpl. apply IH. destruct ev as [i|]; [|done].
  unfold step. destruct (exited st); [done|].
  destruct (tasks st !! i) as [t|]; [|done].
  destruct (terminal (state t)); [done|].
  destruct (advance modPath t) as [t' fx].
  unfold joinReact, finished. simpl.
  destruct (join st) eqn:Hj; simpl.
  - assert (finishedCalls st = 0) as Hfc
      by (destruct Hst as [?|[? ?]]; [done|congruence]).
    destruct (state t'); simpl; try (case_match; simpl; by left).
    right. eauto.
  - destruct Hst as [?|[? ?]]; [by left|congruence].
  - right. eauto.
Qed.

Lemma advance_to_success it n k :
  netSucceeds n = true → 2 ≤ k →
  state (Nat.iter k (λ t, (advance modPath t).1) (mkTask it n Probing))
  = Succeeded.
Proof.
  intros Hn Hk. destruct k as [|[|k]]; [lia|lia|].
  rewrite !Nat.iter_succ_r.
  assert ((advance modPath (advance modPath (mkTask it n Probing)).1).1
          = mkTask it n Succeeded) as ->.
  { unfold netSucceeds in Hn. unfold advance. simpl.
    destruct (headResult n) as [len|]; [|done]. simpl.
    destruct (pipelineResult n); [|done]. done. }
  assert (Nat.iter k (λ t, (advance modPath t).1) (mkTask it n Succeeded)
          = mkTask it n Succeeded) as ->; [|done].
  clear Hk. induction k as [|k IH]; [done|].
  simpl. rewrite IH. by rewrite advance_terminal.
Qed.

(** X18.  When the network answers every probe and delivers every body,
    any schedule that resumes each task at least twice and then lets the two
    timers fire ends the run with every task succeeded, the total bar at its
    total, the join fulfilled, [finished] called once, the message
    ["Finished updating Mods"] written and the process exited with status
    [0]. *)
Theorem all_downloads_succeed mods fx schedule :
  mods ≠ [] →
  Forall (λ p, netSucceeds p.2 = true) mods →
  Forall (λ ev, ev ≠ TimerFires) schedule →
  (∀ i, i < length mods → 2 ≤ readyCount i schedule) →
  let st := run modPath (downloadOutdatedMods mods (idle fx))
                (schedule ++ [TimerFires; TimerFires]) in
  Forall (λ t, state t = Succeeded) (tasks st)
  ∧ updatedCount st = updatedCount (idle fx) + length mods
  ∧ join st = JoinFulfilled
  ∧ finishedCalls st = 1
  ∧ ConsoleLog "Finished updating Mods" ∈ trace st
  ∧ exited st = Some 0%Z.
Proof.
  intros Hne Hnets Hsched Hcount. cbv zeta.
  set (st0 := downloadOutdatedMods mods (idle fx)).
  set (st1 := run modPath st0 schedule).
  assert (exited st1 = None) as Hex1.
  { unfold st1. rewrite exited_run_ready by done.
    unfold st0. by rewrite downloadOutdatedMods_nonempty. }
  assert (length (tasks st1) = length mods) as Hlen.
  { unfold st1, st0. rewrite length_tasks_run.
    rewrite downloadOutdatedMods_nonempty by done. simpl.
    by rewrite length_fmap. }
  assert (Forall (λ t, state t = Succeeded) (tasks st1)) as Hall.
  { apply Forall_lookup. intros i t1 Hi.
    assert (i < length mods) as Hlt
      by (rewrite <-Hlen; by eapply lookup_lt_Some).
    destruct (lookup_lt_is_Some_2 mods i Hlt) as [p Hp].
    assert (tasks st0 !! i = Some (mkTask p.1 p.2 Probing)) as H0.
    { unfold st0. rewrite downloadOutdatedMods_nonempty by done. simpl.
      by rewrite list_lookup_fmap, Hp. }
    unfold st1 in Hi. rewrite (task_progress _ _ _ _ _ Hex1 H0) in Hi.
    injection Hi as <-. apply advance_to_success; [|by apply Hcount].
    rewrite Forall_lookup in Hnets. by apply (Hnets i p). }
  pose proof (joinConsistent_run modPath _ schedule
                (joinConsistent_start mods fx Hne)) as (Hjoin & _ & _).
  fold st0 st1 in Hjoin.
  assert (join st1 = JoinFulfilled) as Hj.
  { destruct (join st1) eqn:Hj; [|done|].
    - by destruct Hjoin as (_ & Hnot & _).
    - destruct Hjoin as [(i & t & Hi & Ht) _].
      rewrite Forall_lookup in Hall. specialize (Hall i t Hi). congruence. }
  assert (finishedCalls st1 = 0) as Hfc.
  { destruct (finished_only_on_rejection st0 schedule Hsched) as [?|[e He]].
    - left. unfold st0. by rewrite downloadOutdatedMods_nonempty.
    - done.
    - fold st1 in He. congruence. }
  assert (pendingTimer st1 = Some StopAndFinish) as Htimer.
  { rewrite Hj in Hjoin. destruct Hjoin as (_ & [[? _]|?]); [done|lia]. }
  assert (run modPath st0 (schedule ++ [TimerFires; TimerFires])
          = mkRun (tasks st1) JoinFulfilled None 1 (Some 0%Z)
              (trace st1 ++ [TotalBarStop] ++ [StartBarIncrement; StartBarStop]
                 ++ [ConsoleLog "Finished updating Mods"; ProcessExit 0]))
    as Hrun.
  { unfold run. rewrite foldl_app.
    change (foldl (step modPath) st0 schedule) with st1. simpl.
    assert (step modPath st1 TimerFires
            = mkRun (tasks st1) JoinFulfilled (Some LogAndExit) 1 None
                (trace st1 ++ [TotalBarStop]
                   ++ [StartBarIncrement; StartBarStop])) as ->.
    { unfold step. rewrite Hex1. unfold fireTimer. rewrite Htimer.
      unfold finished. simpl. by rewrite Hj, Hfc, Hex1, <-app_assoc. }
    unfold step, fireTimer. simpl. by rewrite <-!app_assoc. }
  pose proof (counts_run modPath st0 (schedule ++ [TimerFires; TimerFires]))
    as Hc.
  destruct (counts_start mods fx) as [Hc1 Hc2]. fold st0 in Hc1, Hc2.
  rewrite Hrun in *. simpl. split_and!; try done.
  - rewrite Hc2, Hc1 in Hc. unfold succeededCount in Hc at 1. simpl in Hc.
    rewrite (proj2 (length_filter_all _ _) Hall), Hlen in Hc. lia.
  - apply elem_of_app. right.
    do 3 apply list_elem_of_further. apply list_elem_of_here.
Qed.

End AllSucceed.

Lemma all_downloads_succeed_witness :
  let ok := mkNet (Fulfilled (Some 2048)) (Fulfilled ()) in
  let mods := [(mkEntry "a" "Alpha" "2" "https://example.org/a", ok);
               (mkEntry "b" "Beta" "3" "https://example.org/b", ok)] in
  let schedule := [TaskReady 1; TaskReady 0; TaskReady 1; TaskReady 0] in
  let st := run "Paks" (downloadOutdatedMods mods (idle []))
                (schedule ++ [TimerFires; TimerFires]) in
  Forall (λ p, netSucceeds p.2 = true) mods ∧
  updatedCount st = 2 ∧ exited st = Some 0%Z.
Proof.
  cbv zeta.
  assert (Forall (λ p : RemoteModEntry * netBehaviour, netSucceeds p.2 = true)
            [(mkEntry "a" "Alpha" "2" "https://example.org/a",
              mkNet (Fulfilled (Some 2048)) (Fulfilled ()));
             (mkEntry "b" "Beta" "3" "https://example.org/b",
              mkNet (Fulfilled (Some 2048)) (Fulfilled ()))]) as Hnets
    by (repeat constructor).
  assert (Forall (λ ev, ev ≠ TimerFires)
            [TaskReady 1; TaskReady 0; TaskReady 1; TaskReady 0]) as Hs
    by (apply (bool_decide_unpack _); by vm_compute).
  assert (∀ i, i < 2 →
            2 ≤ readyCount i [TaskReady 1; TaskReady 0; TaskReady 1; TaskReady 0])
    as Hcount.
  { intros i Hi. destruct i as [|[|i]]; [by vm_compute|by vm_compute|lia]. }
  assert ([(mkEntry "a" "Alpha" "2" "https://example.org/a",
            mkNet (Fulfilled (Some 2048)) (Fulfilled ()));
           (mkEntry "b" "Beta" "3" "https://example.org/b",
            mkNet (Fulfilled (Some 2048)) (Fulfilled ()))] ≠ []) as Hne by done.
  pose proof (all_downloads_succeed "Paks" _ [] _ Hne Hnets Hs Hcount) as H.
  cbv zeta in H. destruct H as (_ & H2 & _ & _ & _ & H6).
  split_and!; [exact Hnets|exact H2|exact H6].
Defined.

(** ** The join of the downloads *)

Section JoinOutcome.
Variable modPath : string.

Lemma isDownloadFailure_log name e :
  isDownloadFailure (ConsoleError ("Download failed for " +:+ name) e) = true.
Proof. by vm_compute. Qed.

Lemma failuresLogged_app st fx :
  length (filter (λ e, isDownloadFailure e = true) (trace st ++ fx))
  = failuresLogged st + length (filter (λ e, isDownloadFailure e = true) fx).
Proof. unfold failuresLogged. by rewrite filter_app, length_app. Qed.

Lemma logs_finished st : failuresLogged (finished st) = failuresLogged st.
Proof.
  unfold finished, failuresLogged at 1. simpl.
  rewrite failuresLogged_app. simpl. lia.
Qed.

Lemma logs_joinReact st s : failuresLogged (joinReact st s) = failuresLogged st.
Proof.
  unfold joinReact. destruct (join st); [|done..].
  destruct s; try (by case_match).
  rewrite logs_finished. unfold failuresLogged at 1. simpl.
  rewrite failuresLogged_app. simpl. lia.
Qed.

Lemma logs_fireTimer st : failuresLogged (fireTimer st) = failuresLogged st.
Proof.
  unfold fireTimer. destruct (pendingTimer st) as [[]|]; [| |done].
  - rewrite logs_finished. unfold failuresLogged at 1. simpl.
    rewrite failuresLogged_app. simpl. lia.
  - unfold failuresLogged at 1. simpl. rewrite failuresLogged_app. simpl. lia.
Qed.

(** A step in which a task really resumes. *)
Lemma step_ready st i t :
  exited st = None → tasks st !! i = Some t → terminal (state t) = false →
  step modPath st (TaskReady i)
  = joinReact
      (mkRun (<[i := (advance modPath t).1]> (tasks st)) (join st)
             (pendingTimer st) (finishedCalls st) (exited st)
             (trace st ++ (advance modPath t).2))
      (state (advance modPath t).1).
Proof.
  intros Hex Hi Ht. unfold step. rewrite Hex, Hi, Ht.
  by destruct (advance modPath t).
Qed.

(** A step in which nothing resumes. *)
Lemma step_skip st i :
  is_Some (exited st) ∨ tasks st !! i = None
  ∨ (∃ t, tasks st !! i = Some t ∧ terminal (state t) = true) →
  step modPath st (TaskReady i) = st.
Proof.
  unfold step. intros [[c ->]|[Hi|(t & Hi & Ht)]]; [done| |].
  - destruct (exited st); [done|]. by rewrite Hi.
  - destruct (exited st); [done|]. by rewrite Hi, Ht.
Qed.

(** What a task that resumes writes on the error stream: one line exactly
    when its stream fails, none when its probe fails. *)
Lemma advance_log t :
  terminal (state t) = false → probed t →
  streamFailed t = false
  ∧ probed (advance modPath t).1
  ∧ length (filter (λ e, isDownloadFailure e = true) (advance modPath t).2)
    = (if decide (streamFailed (advance modPath t).1 = true) then 1 else 0)
  ∧ (∀ e, streamFailed (advance modPath t).1 = true →
          state (advance modPath t).1 = Failed e →
          ConsoleError ("Download failed for " +:+ fileNameOf (item t)) e
          ∈ (advance modPath t).2).
Proof.
  unfold advance, probed, streamFailed, headAnswered.
  destruct (state t) as [|len| |e] eqn:Hst; try done; intros _ Hp.
  - destruct (headResult (net t)) as [cl|e] eqn:Hh; simpl; rewrite Hh;
      split_and!; try done.
  - specialize (Hp len eq_refl).
    destruct (pipelineResult (net t)) as [[]|e]; simpl;
      destruct (headResult (net t)); try done; split_and!; try done.
    intros e' _ [= ->]. apply list_elem_of_here.
Qed.

Lemma logs_step st ev :
  Forall probed (tasks st) → Forall (failureLogged st) (tasks st) →
  failuresLogged (step modPath st ev) + streamFailedCount st
  = failuresLogged st + streamFailedCount (step modPath st ev)
  ∧ Forall probed (tasks (step modPath st ev))
  ∧ Forall (failureLogged (step modPath st ev)) (tasks (step modPath st ev)).
Proof.
  intros Hp Hl.
  assert (∀ s', tasks s' = tasks st → failuresLogged s' = failuresLogged st →
                trace st `prefix_of` trace s' →
    failuresLogged s' + streamFailedCount st
    = failuresLogged st + streamFailedCount s'
    ∧ Forall probed (tasks s') ∧ Forall (failureLogged s') (tasks s'))
    as Hsame.
  { intros s' Ht Hf Hpre. unfold streamFailedCount. rewrite Ht, Hf.
    split_and!; [done|done|].
    eapply Forall_impl; [exact Hl|]. intros t H e H1 H2.
    eapply elem_of_prefix; [by apply H|done]. }
  destruct ev as [i|].
  - destruct (exited st) as [c|] eqn:Hex.
    { rewrite step_skip by (left; eauto). by apply Hsame. }
    destruct (tasks st !! i) as [t|] eqn:Hi.
    2: { rewrite step_skip by (right; by left). by apply Hsame. }
    destruct (terminal (state t)) eqn:Ht.
    { rewrite step_skip by (right; right; eauto). by apply Hsame. }
    rewrite (step_ready st i t Hex Hi Ht).
    pose proof (Forall_lookup_1 _ _ _ _ Hp Hi) as Hpt.
    destruct (advance_log t Ht Hpt) as (Hsf & Hp' & Hcount & Hmem).
    pose proof (item_advance modPath t) as Hitem.
    set (t' := (advance modPath t).1) in *.
    set (fx := (advance modPath t).2) in *.
    rewrite logs_joinReact, tasks_joinReact. simpl.
    split_and!.
    + unfold failuresLogged at 1, streamFailedCount.
      rewrite tasks_joinReact. simpl.
      rewrite failuresLogged_app, Hcount.
      pose proof (length_filter_insert (λ t, streamFailed t = true)
                    (tasks st) i t t' Hi) as Hlen.
      rewrite (decide_False (P := streamFailed t = true)) in Hlen
        by (by rewrite Hsf).
      lia.
    + by apply Forall_insert.
    + apply Forall_insert.
      * eapply Forall_impl; [exact Hl|]. intros t0 H e H1 H2.
        eapply elem_of_prefix; [by apply H|].
        etrans; [|apply trace_joinReact]. by apply prefix_app_r.
      * intros e H1 H2. eapply elem_of_prefix; [|apply trace_joinReact].
        simpl. apply elem_of_app. right. rewrite Hitem. by apply Hmem.
  - apply Hsame.
    + rewrite tasks_step. by destruct (exited st).
    + unfold step. destruct (exited st); [done|]. apply logs_fireTimer.
    + apply trace_step.
Qed.

Lemma logs_run st schedule :
  Forall probed (tasks st) → Forall (failureLogged st) (tasks st) →
  failuresLogged (run modPath st schedule) + streamFailedCount st
  = failuresLogged st + streamFailedCount (run modPath st schedule)
  ∧ Forall (failureLogged (run modPath st schedule))
           (tasks (run modPath st schedule)).
Proof.
  revert st. induction schedule as [|ev schedule IH]; intros st Hp Hl;
    [done|].
  simpl. destruct (logs_step st ev Hp Hl) as (Hc & Hp' & Hl').
  destruct (IH _ Hp' Hl') as [Hc' ?]. split; [lia|done].
Qed.

Lemma logs_start mods fx :
  failuresLogged (downloadOutdatedMods mods (idle fx)) = failuresLogged (idle fx)
  ∧ streamFailedCount (downloadOutdatedMods mods (idle fx)) = 0
  ∧ Forall probed (tasks (downloadOutdatedMods mods (idle fx)))
  ∧ Forall (failureLogged (downloadOutdatedMods mods (idle fx)))
           (tasks (downloadOutdatedMods mods (idle fx))).
Proof.
  unfold downloadOutdatedMods, streamFailedCount.
  rewrite logs_joinReact, tasks_joinReact. simpl. split_and!.
  - unfold failuresLogged. simpl. rewrite !filter_app, !length_app. simpl.
    rewrite filter_cons_False by done.
    assert (filter (λ e, isDownloadFailure e = true)
              (mods ≫= λ p, downloadFile_start p.1) = []) as ->; [|simpl; lia].
    apply filter_eq_nil, Forall_forall.
    intros e (p & Hp & _)%list_elem_of_bind.
    apply list_elem_of_singleton in Hp. by subst e.
  - assert (filter (λ t, streamFailed t = true)
              ((λ p, mkTask p.1 p.2 Probing) <$> mods) = []) as ->; [|done].
    apply filter_eq_nil, Forall_fmap, Forall_true. by intros p.
  - apply Forall_fmap, Forall_true. by intros p len.
  - apply Forall_fmap, Forall_true. by intros p e.
Qed.

Lemma run_app st schedule later :
  run modPath st (schedule ++ later)
  = run modPath (run modPath st schedule) later.
Proof. apply foldl_app. Qed.

(** Once [finished] has run, the next timer ends the process, and the tasks
    stay as they are. *)
Lemma exit_after_finished st later :
  finishedCalls st = 1 →
  pendingTimer st = Some LogAndExit ∨ exited st = Some 0%Z →
  exited st = None ∨ exited st = Some 0%Z →
  exited (run modPath st (TimerFires :: later)) = Some 0%Z
  ∧ tasks (run modPath st (TimerFires :: later)) = tasks st
  ∧ finishedCalls (run modPath st (TimerFires :: later)) = 1.
Proof.
  intros Hfc Htimer Hexit.
  destruct (exited st) as [c|] eqn:Hex.
  - rewrite run_exited by (rewrite Hex; eauto).
    rewrite Hex. by destruct Hexit, Htimer.
  - destruct Htimer as [Htimer|?]; [|done].
    assert (step modPath st TimerFires
            = mkRun (tasks st) (join st) None (finishedCalls st) (Some 0%Z)
                (trace st ++ [ConsoleLog "Finished updating Mods";
                              ProcessExit 0])) as Hstep
      by (unfold step, fireTimer; by rewrite Hex, Htimer).
    simpl. rewrite Hstep, run_exited by (simpl; eauto). done.
Qed.

(** C1 (as stated, refuted).  Three outdated mods, the stream of the second
    fails before the other two have answered their probe: the join is
    rejected and [finished] is called while two tasks are still pending.
    When the exit timer then fires before they complete, no success is
    counted. *)
Lemma wait_for_all_counterexample :
  let ok := mkNet (Fulfilled (Some 1024)) (Fulfilled ()) in
  let bad := mkNet (Fulfilled (Some 1024)) (Rejected "ECONNRESET") in
  let mods := [(mkEntry "a" "Alpha" "2" "https://example.org/a", ok);
               (mkEntry "b" "Beta" "3" "https://example.org/b", bad);
               (mkEntry "c" "Gamma" "4" "https://example.org/c", ok)] in
  let st := run "Paks" (downloadOutdatedMods mods (idle []))
                [TaskReady 1; TaskReady 1] in
  let st' := run "Paks" st
                 [TimerFires; TaskReady 0; TaskReady 0; TaskReady 2; TaskReady 2] in
  joinSettled st = true ∧ join st = JoinRejected "ECONNRESET" ∧
  finishedCalls st = 1 ∧
  state <$> tasks st = [Probing; Failed "ECONNRESET"; Probing] ∧
  allTerminal st = false ∧
  exited st' = Some 0%Z ∧ updatedCount st' = 0 ∧ allTerminal st' = false.
Proof. cbv zeta. split_and!; by vm_compute. Qed.

(** C1 (amended).  For a non-empty list of outdated mods every download is
    started.  No task is cancelled as such: while the process runs, a task
    that resumes proceeds according to its own network answers whatever the
    other tasks and the join have become; once the process has exited,
    nothing runs any more.  The join does not wait for every task: it is
    rejected as soon as one task fails and fulfilled once all have
    succeeded, and it stays pending, with [finished] not called and the
    process running, exactly while no task has failed and not all have
    succeeded.  No outcome is collected per task: each success is counted
    once on the total bar, and each stream failure is written once to the
    error stream, with the name of the file and the error.  A rejected join
    calls [finished] at once, and the next timer then ends the process with
    the tasks as they are: those that have not settled never do.  A
    fulfilled join calls [finished] when its timer fires, and the timer
    after that ends the process.  [finished] is called at most once and the
    process only ever exits with status [0].  Given three outdated mods
    where the stream of the second fails after the other two have
    completed, 2 successes are counted, 1 failure is logged, and the run
    reaches [finished] and exits with status [0]; where it fails before the
    other two have answered their probe and the timer fires next, these two
    stay as they are, whatever is scheduled afterwards. *)
Theorem join_settles_on_first_failure mods fx schedule :
  mods ≠ [] →
  let st := run modPath (downloadOutdatedMods mods (idle fx)) schedule in
  (length (tasks st) = length mods
   ∧ Forall (λ p, HttpHead (DownloadUrl p.1) ∈ trace st) mods)
  ∧ (∀ s i t, exited s = None → tasks s !! i = Some t →
       tasks (step modPath s (TaskReady i))
       = <[i := (advance modPath t).1]> (tasks s))
  ∧ (∀ s later, is_Some (exited s) → run modPath s later = s)
  ∧ (join st = JoinPending
     ↔ Forall (λ t, ∀ e, state t ≠ Failed e) (tasks st)
       ∧ ¬ Forall (λ t, state t = Succeeded) (tasks st))
  ∧ (join st = JoinPending → finishedCalls st = 0 ∧ exited st = None)
  ∧ (join st = JoinFulfilled
     ↔ Forall (λ t, state t = Succeeded) (tasks st))
  ∧ (join st = JoinFulfilled →
       finishedCalls (run modPath st [TimerFires]) = 1
       ∧ exited (run modPath st [TimerFires; TimerFires]) = Some 0%Z)
  ∧ (∀ e, join st = JoinRejected e →
       (∃ i t, tasks st !! i = Some t ∧ state t = Failed e)
       ∧ finishedCalls st = 1
       ∧ ∀ later,
           exited (run modPath st (TimerFires :: later)) = Some 0%Z
           ∧ tasks (run modPath st (TimerFires :: later)) = tasks st)
  ∧ (updatedCount st = updatedCount (idle fx) + succeededCount st
     ∧ failuresLogged st = failuresLogged (idle fx) + streamFailedCount st
     ∧ Forall (failureLogged st) (tasks st))
  ∧ finishedCalls st ≤ 1
  ∧ (exited st = None ∨ exited st = Some 0%Z)
  ∧ (let ok := mkNet (Fulfilled (Some 1024)) (Fulfilled ()) in
     let bad := mkNet (Fulfilled (Some 1024)) (Rejected "ECONNRESET") in
     let three := [(mkEntry "a" "Alpha" "2" "https://example.org/a", ok);
                   (mkEntry "b" "Beta" "3" "https://example.org/b", bad);
                   (mkEntry "c" "Gamma" "4" "https://example.org/c", ok)] in
     let s := run modPath (downloadOutdatedMods three (idle []))
                  [TaskReady 0; TaskReady 1; TaskReady 2;
                   TaskReady 2; TaskReady 0; TaskReady 1] in
     (state <$> tasks s = [Succeeded; Failed "ECONNRESET"; Succeeded]
      ∧ updatedCount s = 2 ∧ failuresLogged s = 1
      ∧ join s = JoinRejected "ECONNRESET" ∧ finishedCalls s = 1
      ∧ exited (run modPath s [TimerFires]) = Some 0%Z)
     ∧ ∀ later,
         state <$> tasks (run modPath (downloadOutdatedMods three (idle []))
                              ([TaskReady 1; TaskReady 1; TimerFires] ++ later))
         = [Probing; Failed "ECONNRESET"; Probing]).
Proof.
  intros Hne. cbv zeta.
  pose proof (joinConsistent_run modPath _ schedule
                (joinConsistent_start mods fx Hne)) as (Hjoin & Hfin & Hexit).
  destruct (counts_start mods fx) as [Hu0 Hs0].
  pose proof (counts_run modPath (downloadOutdatedMods mods (idle fx)) schedule)
    as Hu.
  destruct (logs_start mods fx) as (Hl0 & Hf0 & Hp0 & Hm0).
  destruct (logs_run (downloadOutdatedMods mods (idle fx)) schedule Hp0 Hm0)
    as [Hl Hm].
  set (st := run modPath (downloadOutdatedMods mods (idle fx)) schedule) in *.
  assert (exited st = None ∨ exited st = Some 0%Z) as Hexit'
    by (destruct Hexit as [?|[? _]]; auto).
  split_and!.
  - unfold st. rewrite length_tasks_run, downloadOutdatedMods_nonempty by done.
    simpl. by rewrite length_fmap.
  - apply Forall_forall. intros p Hp.
    eapply elem_of_prefix; [|apply trace_run].
    rewrite downloadOutdatedMods_nonempty by done. simpl.
    rewrite !elem_of_app. right. right.
    apply list_elem_of_bind. exists p. split; [|done].
    apply list_elem_of_here.
  - intros s i t Hs Hi. by rewrite tasks_step, Hs, Hi.
  - intros s later Hs. by apply run_exited.
  - destruct (join st) eqn:Hj.
    + split; [intros _; split; apply Hjoin|done].
    + split; [done|]. intros [_ Hnot]. destruct Hjoin as [Hall _]. done.
    + split; [done|]. intros [Hno _].
      destruct Hjoin as [(i & t & Hi & Ht) _].
      rewrite Forall_lookup in Hno. by destruct (Hno i t Hi err).
  - intros Hj. rewrite Hj in Hjoin. destruct Hjoin as (_ & _ & Hfc & _).
    split; [done|]. destruct Hexit as [?|[_ ?]]; [done|congruence].
  - destruct (join st) eqn:Hj.
    + split; [done|]. intros Hall. by destruct Hjoin as (_ & Hnot & _).
    + split; [intros _; apply Hjoin|done].
    + split; [done|]. intros Hall.
      destruct Hjoin as [(i & t & Hi & Ht) _].
      rewrite Forall_lookup in Hall. specialize (Hall i t Hi). congruence.
  - intros Hj. rewrite Hj in Hjoin. destruct Hjoin as (_ & [[Htimer Hfc]|Hfc]).
    + assert (exited st = None) as Hex
        by (destruct Hexit as [?|[_ ?]]; [done|congruence]).
      assert (step modPath st TimerFires
              = finished (mkRun (tasks st) (join st) None (finishedCalls st)
                                (exited st) (trace st ++ [TotalBarStop])))
        as Hstep by (unfold step, fireTimer; by rewrite Hex, Htimer).
      split.
      * simpl. rewrite Hstep. simpl. by rewrite Hfc.
      * change (run modPath st [TimerFires; TimerFires])
          with (run modPath (step modPath st TimerFires) [TimerFires]).
        rewrite Hstep. apply exit_after_finished; simpl; auto.
    + destruct (exit_after_finished st [] Hfc (Hfin Hfc) Hexit')
        as (Hx & _ & Hf).
      split; [done|].
      change (run modPath st [TimerFires; TimerFires])
        with (run modPath (run modPath st [TimerFires]) [TimerFires]).
      rewrite run_exited by (rewrite Hx; eauto). done.
  - intros e He. rewrite He in Hjoin. destruct Hjoin as [Hfail Hfc].
    split_and!; [done|done|]. intros later.
    destruct (exit_after_finished st later Hfc (Hfin Hfc) Hexit')
      as (? & ? & _).
    done.
  - lia.
  - lia.
  - done.
  - destruct (join st).
    + destruct Hjoin as (_ & _ & -> & _). lia.
    + destruct Hjoin as (_ & [[_ ->]| ->]); lia.
    + destruct Hjoin as (_ & ->). lia.
  - done.
  - by vm_compute.
  - by vm_compute.
  - by vm_compute.
  - by vm_compute.
  - by vm_compute.
  - by vm_compute.
  - intros later. rewrite run_app, run_exited; [by vm_compute|].
    vm_compute. eauto.
Qed.

End JoinOutcome.

Lemma join_settles_on_first_failure_witness :
  let ok := mkNet (Fulfilled None) (Fulfilled ()) in
  let bad := mkNet (Fulfilled (Some 7)) (Rejected "ENOSPC") in
  let mods := [(mkEntry "a" "Alpha" "2" "https://example.org/a", bad);
               (mkEntry "b" "Beta" "3" "https://example.org/b", ok)] in
  let st := run "Paks" (downloadOutdatedMods mods (idle []))
                [TaskReady 0; TaskReady 0; TaskReady 1] in
  mods ≠ [] ∧ length (tasks st) = 2 ∧ finishedCalls st ≤ 1 ∧
  failuresLogged st = streamFailedCount st ∧
  join st = JoinRejected "ENOSPC" ∧
  state <$> tasks st = [Failed "ENOSPC"; Streaming None].
Proof.
  cbv zeta.
  pose proof (join_settles_on_first_failure "Paks"
                [(mkEntry "a" "Alpha" "2" "https://example.org/a",
                  mkNet (Fulfilled (Some 7)) (Rejected "ENOSPC"));
                 (mkEntry "b" "Beta" "3" "https://example.org/b",
                  mkNet (Fulfilled None) (Fulfilled ()))]
                [] [TaskReady 0; TaskReady 0; TaskReady 1]
                ltac:(done))
    as ((Hlen & _) & _ & _ & _ & _ & _ & _ & _ & (_ & Hlog & _) & Hfc & _).
  split_and!;
    [done|exact Hlen|exact Hfc|exact Hlog|by vm_compute|by vm_compute].
Defined.

(** ** The command line *)

Section CommandLineFacts.
Import JsString JsStringFacts.
Variable resolve : string → option string.
Variable existsSync : string → bool.
Variable pathJoin : string → string → string.

Lemma startsWith_app p x : startsWith p (p +:+ x) = true.
Proof. unfold startsWith. by rewrite strip_prefix_app. Qed.

(** Removing a pattern from a string that starts with it removes that
    first occurrence only. *)
Lemma replace_prefix p x : replace p "" (p +:+ x) = x.
Proof.
  unfold replace.
  assert (cut p (p +:+ x) = Some ("", x)) as ->; [|done].
  destruct (p +:+ x) eqn:E.
  - simpl. by rewrite <-E, strip_prefix_app.
  - by rewrite cut_cons, <-E, strip_prefix_app.
Qed.

Lemma cliArg_first pre arg post :
  Forall (λ a, startsWith "dir=" a = false) pre →
  startsWith "dir=" arg = true →
  cliArg (pre ++ arg :: post) = Some arg.
Proof.
  intros Hpre Harg. unfold cliArg.
  induction Hpre as [|a pre Ha _ IH]; simpl.
  - by rewrite Harg.
  - by rewrite Ha.
Qed.

Lemma cliArg_None argv :
  cliArg argv = None ↔ Forall (λ a, startsWith "dir=" a = false) argv.
Proof.
  unfold cliArg. induction argv as [|a argv IH]; simpl.
  - split; [constructor|done].
  - destruct (startsWith "dir=" a) eqn:E.
    + split; [done|]. inversion 1; congruence.
    + rewrite IH. split; [by constructor|by inversion 1].
Qed.

(** X19.  The directory is what follows ["dir="] in the first argument that
    starts with it, even when it holds ["dir="] itself; later arguments are
    not looked at.  When it can be resolved, a directory that does not exist
    raises no error: [modPath] is left undefined.  Otherwise [modPath] is the
    resolved directory when that holds ["Paks"] anywhere, and the resolved
    directory joined with [FSD\Content\Paks] when it does not. *)
Theorem first_dir_argument_sets_modPath pre dir post :
  Forall (λ a, startsWith "dir=" a = false) pre →
  setModPath resolve existsSync pathJoin (pre ++ ("dir=" +:+ dir) :: post)
  = match resolve dir with
    | None =>
        StartupThrows
          "Please provide a valid installation directory path for Deep Rock Galactic"
    | Some gameDirPath =>
        StartupDone
          (if existsSync dir
           then Some (if includes "Paks" gameDirPath
                      then gameDirPath
                      else pathJoin gameDirPath pakPath)
           else None)
    end.
Proof.
  intros Hpre. unfold setModPath.
  rewrite (cliArg_first pre _ post Hpre (startsWith_app _ _)).
  rewrite replace_prefix. destruct (resolve dir); [|done].
  by destruct (existsSync dir).
Qed.

(** X20.  The module-level statements throw the error that asks for the
    installation directory exactly when no argument starts with ["dir="]. *)
Theorem startup_throws_iff_no_dir_argument argv :
  setModPath resolve existsSync pathJoin argv
  = StartupThrows
      "Please provide the installation directory path for Deep Rock Galactic"
  ↔ Forall (λ a, startsWith "dir=" a = false) argv.
Proof.
  rewrite <-cliArg_None. unfold setModPath.
  destruct (cliArg argv) as [arg|]; [|done].
  split; [|done]. destruct (resolve _); [|done]. by destruct (existsSync _).
Qed.

End CommandLineFacts.

Lemma first_dir_argument_sets_modPath_witness :
  let argv := ["node"; "start.mjs"; "dir=D:\dir=games\DRG"; "dir=E:\other"] in
  let existsSync := λ p : string, bool_decide (p = "D:\dir=games\DRG") in
  Forall (λ a, startsWith "dir=" a = false) ["node"; "start.mjs"] ∧
  setModPath Some existsSync (λ a b, a +:+ "\" +:+ b) argv
  = StartupDone (Some "D:\dir=games\DRG\FSD\Content\Paks").
Proof.
  cbv zeta.
  assert (Forall (λ a, startsWith "dir=" a = false) ["node"; "start.mjs"])
    as H by (repeat constructor).
  split; [exact H|].
  exact (first_dir_argument_sets_modPath Some
           (λ p : string, bool_decide (p = "D:\dir=games\DRG"))
           (λ a b, a +:+ "\" +:+ b)
           ["node"; "start.mjs"] "D:\dir=games\DRG" ["dir=E:\other"] H).
Defined.

(** ** Every run *)

Section EveryRun.
Variable modPath : string.

(** X21.  Whatever the registry fetch, the directory read, the network and
    the schedule do, [finished] is called at most once and the process never
    exits with a status other than [0]: no failure is reported through the
    exit status. *)
Theorem every_run_exits_with_zero localeSort nets registry files dirFirst
    schedule :
  let st := run modPath
              (checkMods modPath localeSort nets registry files dirFirst)
              schedule in
  finishedCalls st ≤ 1
  ∧ (exited st = None ∨ exited st = Some 0%Z)
  ∧ exitStatus st = 0%Z.
Proof.
  cbv zeta.
  assert (∀ st, finishedCalls st ≤ 1 ∧ (exited st = None ∨ exited st = Some 0%Z) →
            finishedCalls st ≤ 1 ∧ (exited st = None ∨ exited st = Some 0%Z)
            ∧ exitStatus st = 0%Z) as Hstatus.
  { intros st [Hf He]. split_and!; [done|done|].
    unfold exitStatus. by destruct He as [-> | ->]. }
  apply Hstatus. unfold checkMods.
  destruct registry as [remoteRegistry|e1], files as [listing|e2];
    try (rewrite run_idle; unfold idle; simpl; split; [lia|by left]).
  destruct (checkOutdatedMods _ _) as [|e l] eqn:Hout.
  - rewrite run_waiting_for_exit by done.
    case_bool_decide; simpl; split; auto.
  - assert ((λ it, (it, nets it)) <$> e :: l ≠ []) as Hne
      by (by intros ?%fmap_nil_inv).
    pose proof (joinConsistent_run modPath _ schedule
                  (joinConsistent_start
                     ((λ it, (it, nets it)) <$> e :: l)
                     (started modPath ++ [StartBarIncrement; StartBarIncrement])
                     Hne)) as (Hjoin & _ & Hexit).
    split.
    + destruct (join _); [destruct Hjoin as (_ & _ & -> & _)
                         |destruct Hjoin as (_ & [[_ ->]| ->])
                         |destruct Hjoin as (_ & ->)]; lia.
    + destruct Hexit as [?|[? _]]; auto.
Qed.

End EveryRun.
